(** * yaml-source-map: the token walk of [yaml_source_map/handle.py]

    The module computes, from the token stream of a PyYAML loader, the list
    of (JSON pointer, source span) pairs of a value.  The three functions
    [value], [sequence] and [primitive] are embedded below as computations
    in a small state-and-exception monad over the loader's remaining
    tokens. *)

From Stdlib Require Import ZArith List String Ascii Bool Lia Sorted.
From Stdlib Require Import Decimal DecimalString DecimalNat.
Import ListNotations.
Local Open Scope string_scope.
Local Open Scope list_scope.

(** ** PyYAML tokens, as far as the walk looks at them *)

Module yaml.

(** The token classes of PyYAML's [tokens.py]. *)
Inductive TokenClass : Set :=
| DirectiveToken | DocumentStartToken | DocumentEndToken
| StreamStartToken | StreamEndToken
| BlockSequenceStartToken | BlockMappingStartToken | BlockEndToken
| FlowSequenceStartToken | FlowMappingStartToken
| FlowSequenceEndToken | FlowMappingEndToken
| KeyToken | ValueToken | BlockEntryToken | FlowEntryToken
| AliasToken | AnchorToken | TagToken | ScalarToken.

Definition class_eqb (a b : TokenClass) : bool :=
  match a, b with
  | DirectiveToken, DirectiveToken
  | DocumentStartToken, DocumentStartToken
  | DocumentEndToken, DocumentEndToken
  | StreamStartToken, StreamStartToken
  | StreamEndToken, StreamEndToken
  | BlockSequenceStartToken, BlockSequenceStartToken
  | BlockMappingStartToken, BlockMappingStartToken
  | BlockEndToken, BlockEndToken
  | FlowSequenceStartToken, FlowSequenceStartToken
  | FlowMappingStartToken, FlowMappingStartToken
  | FlowSequenceEndToken, FlowSequenceEndToken
  | FlowMappingEndToken, FlowMappingEndToken
  | KeyToken, KeyToken
  | ValueToken, ValueToken
  | BlockEntryToken, BlockEntryToken
  | FlowEntryToken, FlowEntryToken
  | AliasToken, AliasToken
  | AnchorToken, AnchorToken
  | TagToken, TagToken
  | ScalarToken, ScalarToken => true
  | _, _ => false
  end.

(** A [Mark]: the walk reads [line], [column] and [index] only. *)
Record Mark : Set := { line : Z; column : Z; index : Z }.

(** A token: its class and its two marks. *)
Record Token : Set :=
  { class : TokenClass; start_mark : Mark; end_mark : Mark }.

(** The loader, seen through [peek_token] and [get_token]: the tokens that
    are still to come.  Both calls answer [None] once the stream is
    exhausted. *)
Definition Loader : Set := list Token.

End yaml.

(** ** The result types *)

Module types.

(** Modelled from the spec: the class [Location] of the missing module
    [types]; the spec has it as the immutable triple (line, column,
    offset), and [handle.py] builds it from a mark's [line], [column] and
    [index]. *)
Record Location : Set := { line : Z; column : Z; offset : Z }.

(** Modelled from the spec: the class [Entry] of the missing module
    [types]; the spec has it as the pair (valueStart, valueEnd). *)
Record Entry : Set := { value_start : Location; value_end : Location }.

(** Modelled from the spec: the type [TSourceMapEntries] of the missing
    module [types], the ordered list of (pointer, span) pairs. *)
Definition TSourceMapEntries : Set := list (string * Entry).

End types.

Module errors.

(** Modelled from the spec: the exception [InvalidYamlError] of the missing
    module [errors]; it is the single error kind, and carries what was
    expected (the text of the message up to the token) and the offending
    token. *)
Inductive InvalidYamlError : Set :=
| Build_InvalidYamlError (expected : string) (token : option yaml.Token).

End errors.

Import yaml.

(** ** The monad of a walk: loader state, exceptions, and fuel *)

Inductive outcome (A : Type) : Type :=
| Return (a : A)
| Raise (e : errors.InvalidYamlError)
| OutOfFuel.

Arguments Return {A} a.
Arguments Raise {A} e.
Arguments OutOfFuel {A}.

Definition M (A : Type) : Type := Loader -> outcome A * Loader.

Definition ret {A} (a : A) : M A := fun loader => (Return a, loader).

Definition bind {A B} (m : M A) (k : A -> M B) : M B :=
  fun loader =>
    match m loader with
    | (Return a, loader') => k a loader'
    | (Raise e, loader') => (Raise e, loader')
    | (OutOfFuel, loader') => (OutOfFuel, loader')
    end.

Definition raise {A} (e : errors.InvalidYamlError) : M A :=
  fun loader => (Raise e, loader).

Definition out_of_fuel {A} : M A := fun loader => (OutOfFuel, loader).

Declare Scope walk_scope.
Delimit Scope walk_scope with walk.
Notation "x <- m ;; k" := (bind m (fun x => k))
  (at level 61, m at next level, right associativity) : walk_scope.
Notation "m ;; k" := (bind m (fun _ => k))
  (at level 61, right associativity) : walk_scope.
Local Open Scope walk_scope.

(** [loader.peek_token()]: the next token, not removed. *)
Definition peek_token : M (option Token) :=
  fun loader => (Return (hd_error loader), loader).

(** [loader.get_token()]: the next token, removed. *)
Definition get_token : M (option Token) :=
  fun loader => (Return (hd_error loader), tl loader).

(** [isinstance(token, classes)]; [None] is an instance of no token class. *)
Definition isinstance (token : option Token) (classes : list TokenClass) : bool :=
  match token with
  | Some t => existsb (class_eqb (class t)) classes
  | None => false
  end.

(** [if not isinstance(token, classes): raise ...], and the token used as
    one of [classes] afterwards: the token, when the test lets it through. *)
Definition narrow (token : option Token) (classes : list TokenClass)
  : option Token :=
  if isinstance token classes then token else None.

(** ** [handle.py] *)

(** [types.Location(mark.line, mark.column, mark.index)] *)
Definition location_of (m : Mark) : types.Location :=
  types.Build_Location (yaml.line m) (yaml.column m) (yaml.index m).

(** The decimal text of an index, as [f"{sequence_index}"] prints it. *)
Definition decimal (n : nat) : string :=
  NilEmpty.string_of_uint (Nat.to_uint n).

(** [f"/{sequence_index}{pointer}"] *)
Definition child_pointer (sequence_index : nat) (pointer : string) : string :=
  "/" ++ decimal sequence_index ++ pointer.

Definition primitive : M types.TSourceMapEntries :=
  token <- get_token ;;
  match narrow token [ScalarToken] with
  | None =>
      raise (errors.Build_InvalidYamlError "expected scalar but received" token)
  | Some token =>
      ret [("", types.Build_Entry (location_of (start_mark token))
                                  (location_of (end_mark token)))]
  end.

(** [value], [sequence] and the [while] loop of [sequence] call one another;
    [fuel] bounds the depth of these calls. *)
Fixpoint value_fuel (fuel : nat) : M types.TSourceMapEntries :=
  match fuel with
  | O => out_of_fuel
  | S fuel =>
      next <- peek_token ;;
      if isinstance next [FlowSequenceStartToken; BlockSequenceStartToken]
      then sequence_fuel fuel
      else primitive
  end

with sequence_fuel (fuel : nat) : M types.TSourceMapEntries :=
  match fuel with
  | O => out_of_fuel
  | S fuel =>
      (* Look for sequence start *)
      token <- get_token ;;
      match narrow token [FlowSequenceStartToken; BlockSequenceStartToken] with
      | None =>
          raise (errors.Build_InvalidYamlError
                   "expected sequence or block sequence start but received"
                   token)
      | Some token =>
          let value_start := location_of (start_mark token) in
          (* Handle values *)
          state <- while_fuel fuel 0 [] ;;
          let entries := snd state in
          (* Look for sequence end *)
          token <- get_token ;;
          match narrow token [FlowSequenceEndToken; BlockEndToken] with
          | None =>
              raise (errors.Build_InvalidYamlError
                       "expected sequence or block end but received" token)
          | Some token =>
              let value_end := location_of (end_mark token) in
              ret (("", types.Build_Entry value_start value_end) :: entries)
          end
      end
  end

(** The [while] loop; its state is [(sequence_index, entries)]. *)
with while_fuel (fuel : nat) (sequence_index : nat)
       (entries : types.TSourceMapEntries)
  : M (nat * types.TSourceMapEntries) :=
  match fuel with
  | O => out_of_fuel
  | S fuel =>
      next <- peek_token ;;
      if isinstance next [FlowSequenceEndToken; BlockEndToken]
      then ret (sequence_index, entries)
      else
        (* Skip block entry *)
        next <- peek_token ;;
        (if isinstance next [BlockEntryToken]
         then get_token ;; ret tt else ret tt) ;;
        (* Retrieve values *)
        value_entries <- value_fuel fuel ;;
        let entries :=
          entries ++ map (fun pe => (child_pointer sequence_index (fst pe), snd pe))
                         value_entries in
        let sequence_index := sequence_index + 1 in
        (* Skip flow entry *)
        next <- peek_token ;;
        (if isinstance next [FlowEntryToken]
         then get_token ;; ret tt else ret tt) ;;
        while_fuel fuel sequence_index entries
  end.

(** Fuel that is enough for a loader: every call of the chain
    value, sequence, loop takes a token off before the chain repeats. *)
Definition enough (loader : Loader) : nat := 3 * List.length loader + 3.

Definition value : M types.TSourceMapEntries :=
  fun loader => value_fuel (enough loader) loader.

Definition sequence : M types.TSourceMapEntries :=
  fun loader => sequence_fuel (enough loader) loader.

(** The loop as a computation of its own, with fuel enough for the loader. *)
Definition while_loop (sequence_index : nat) (entries : types.TSourceMapEntries)
  : M (nat * types.TSourceMapEntries) :=
  fun loader => while_fuel (enough loader) sequence_index entries loader.

(** ** Successful walks *)

Definition sequence_starts : list TokenClass :=
  [FlowSequenceStartToken; BlockSequenceStartToken].

Definition sequence_ends : list TokenClass :=
  [FlowSequenceEndToken; BlockEndToken].

(** The loader after an optional separator of class [c] has been skipped. *)
Definition skip (c : TokenClass) (loader : Loader) : Loader :=
  if isinstance (hd_error loader) [c] then tl loader else loader.

(** The entry of a value that opens at token [s] and closes at token [e]. *)
Definition entry_of (s e : Token) : types.Entry :=
  types.Build_Entry (location_of (start_mark s)) (location_of (end_mark e)).

(** The entries of one element, re-addressed below index [i]. *)
Definition reprefix (i : nat) (sub : types.TSourceMapEntries)
  : types.TSourceMapEntries :=
  map (fun pe => (child_pointer i (fst pe), snd pe)) sub.

(** The entries of the elements [subs], the first of which has index [i]. *)
Fixpoint children_from (i : nat) (subs : list types.TSourceMapEntries)
  : types.TSourceMapEntries :=
  match subs with
  | [] => []
  | sub :: subs => reprefix i sub ++ children_from (S i) subs
  end.

Definition error_scalar (token : option Token) : errors.InvalidYamlError :=
  errors.Build_InvalidYamlError "expected scalar but received" token.

Definition error_start (token : option Token) : errors.InvalidYamlError :=
  errors.Build_InvalidYamlError
    "expected sequence or block sequence start but received" token.

Definition error_end (token : option Token) : errors.InvalidYamlError :=
  errors.Build_InvalidYamlError
    "expected sequence or block end but received" token.

(** The successful walks, as a relation between the loader before, the
    entries returned and the loader after.  [walk_elements] is the loop: it
    relates the loader at the loop's head to the sub-maps of the elements it
    walks and the loader at the end token. *)
Inductive walk_value : Loader -> types.TSourceMapEntries -> Loader -> Prop :=
| walk_scalar t rest :
    isinstance (Some t) [ScalarToken] = true ->
    isinstance (Some t) sequence_starts = false ->
    walk_value (t :: rest) [("", entry_of t t)] rest
| walk_sequence s l subs e rest :
    isinstance (Some s) sequence_starts = true ->
    walk_elements l subs (e :: rest) ->
    isinstance (Some e) sequence_ends = true ->
    walk_value (s :: l) (("", entry_of s e) :: children_from 0 subs) rest
with walk_elements : Loader -> list types.TSourceMapEntries -> Loader -> Prop :=
| walk_stop l :
    isinstance (hd_error l) sequence_ends = true ->
    walk_elements l [] l
| walk_element l sub l2 subs l' :
    isinstance (hd_error l) sequence_ends = false ->
    walk_value (skip BlockEntryToken l) sub l2 ->
    walk_elements (skip FlowEntryToken l2) subs l' ->
    walk_elements l (sub :: subs) l'.

Scheme walk_value_ind2 := Minimality for walk_value Sort Prop
  with walk_elements_ind2 := Minimality for walk_elements Sort Prop.
Combined Scheme walk_mutind from walk_value_ind2, walk_elements_ind2.

(** ** Pointers, nesting, positions and forms *)

Definition finished {A} (r : outcome A * Loader) : Prop := fst r <> OutOfFuel.

(** The end class that closes the form a start class opens. *)
Definition closes (s e : Token) : Prop :=
  (class s = FlowSequenceStartToken /\ class e = FlowSequenceEndToken)
  \/ (class s = BlockSequenceStartToken /\ class e = BlockEndToken).

(** The pointer of a path of indices: "/i0/i1/...". *)
Fixpoint pointer_of_path (path : list nat) : string :=
  match path with
  | [] => ""
  | i :: path => child_pointer i (pointer_of_path path)
  end.

(** The number of "/" in a pointer: how far below the root it addresses. *)
Fixpoint depth (p : string) : nat :=
  match p with
  | EmptyString => 0
  | String c p => (if Ascii.eqb c "/" then 1 else 0) + depth p
  end.

Fixpoint slash_free (s : string) : bool :=
  match s with
  | EmptyString => true
  | String c s => negb (Ascii.eqb c "/") && slash_free s
  end.

(** A text at which a path segment can end: empty, or a further "/". *)
Definition boundary (s : string) : Prop :=
  s = "" \/ exists s', s = String "/" s'.

(** A pointer that addresses something below the root. *)
Definition below (pe : string * types.Entry) : Prop :=
  exists i path, fst pe = pointer_of_path (i :: path).

(** A source map that starts with its root entry, all others being below. *)
Definition rooted (es : types.TSourceMapEntries) : Prop :=
  exists entry rest, es = ("", entry) :: rest /\ Forall below rest.

(** The pointers one level below the root. *)
Definition immediate (p : string) : bool := Nat.eqb (depth p) 1.

(** Every entry comes before the entries of what lies below its pointer. *)
Definition parents_first (es : types.TSourceMapEntries) : Prop :=
  forall i j p q a b,
    nth_error es i = Some (p, a) ->
    nth_error es j = Some ((p ++ "/" ++ q)%string, b) ->
    i < j.

(** How a token changes the nesting of sequences: a start of either form
    opens one, an end of either form closes one. *)
Definition bracket (t : Token) : Z :=
  if isinstance (Some t) sequence_starts then 1
  else if isinstance (Some t) sequence_ends then -1
  else 0.

(** The sequences still open after the tokens [l]. *)
Fixpoint nesting (l : list Token) : Z :=
  match l with
  | [] => 0
  | t :: l => bracket t + nesting l
  end.

Definition start_offset (a : types.Entry) : Z :=
  types.offset (types.value_start a).

Definition end_offset (a : types.Entry) : Z :=
  types.offset (types.value_end a).

(** The offsets of the marks of the tokens, in the order of the stream. *)
Definition positions (l : list Token) : list Z :=
  flat_map (fun t => [yaml.index (start_mark t); yaml.index (end_mark t)]) l.

(** The tokenizer's contract on positions: read in stream order, the
    offsets of the marks never decrease (no token ends before it starts, or
    starts before the one before it ends). *)
Definition document_order (l : list Token) : Prop :=
  Sorted Z.le (positions l).

(** The start of [a] occurs among [ps] before its end does. *)
Definition within (ps : list Z) (a : types.Entry) : Prop :=
  exists x y z, ps = x ++ start_offset a :: y ++ end_offset a :: z.

(** The tokens a walk takes: the root spans them from the first mark to the
    last, and every entry lies among their marks. *)
Definition spans (c : list Token) (es : types.TSourceMapEntries) : Prop :=
  exists root rest mid,
    es = ("", root) :: rest
    /\ positions c = start_offset root :: mid ++ [end_offset root]
    /\ Forall (fun pe => within (positions c) (snd pe)) rest.

(** Two tokens with the same marks and the same role in the walk: the same
    class, or both sequence starts, or both sequence ends. *)
Definition same_up_to_form (t t' : Token) : Prop :=
  start_mark t = start_mark t' /\ end_mark t = end_mark t'
  /\ (class t = class t'
      \/ (isinstance (Some t) sequence_starts = true
          /\ isinstance (Some t') sequence_starts = true)
      \/ (isinstance (Some t) sequence_ends = true
          /\ isinstance (Some t') sequence_ends = true)).

(** Two outcomes that agree: the same entries, or an exception in both. *)
Definition same_outcome
    (r r' : outcome types.TSourceMapEntries * Loader) : Prop :=
  match fst r, fst r' with
  | Return es, Return es' =>
      es = es' /\ Forall2 same_up_to_form (snd r) (snd r')
  | Raise _, Raise _ => True
  | _, _ => False
  end.

(** The class lists the walk tests: none tells a flow bracket from a block
    bracket of the same role. *)
Definition tested (classes : list TokenClass) : Prop :=
  classes = sequence_starts \/ classes = sequence_ends
  \/ classes = [ScalarToken] \/ classes = [BlockEntryToken]
  \/ classes = [FlowEntryToken].

(** ** Tokens of small documents *)

Definition mark (i : Z) : Mark := {| yaml.line := 0; yaml.column := i; yaml.index := i |}.

Definition tok (c : TokenClass) (i j : Z) : Token :=
  {| class := c; start_mark := mark i; end_mark := mark j |}.

Definition span (i j : Z) : types.Entry :=
  types.Build_Entry (location_of (mark i)) (location_of (mark j)).

(** [[1, 2]] *)
Definition doc_flow_pair : Loader :=
  [ tok FlowSequenceStartToken 0 1; tok ScalarToken 1 2;
    tok FlowEntryToken 2 3; tok ScalarToken 4 5;
    tok FlowSequenceEndToken 5 6; tok StreamEndToken 6 6 ].

(** [[]] *)
Definition doc_empty : Loader :=
  [ tok FlowSequenceStartToken 0 1; tok FlowSequenceEndToken 1 2;
    tok StreamEndToken 2 2 ].

(** [[[1], 2]] *)
Definition doc_nested : Loader :=
  [ tok FlowSequenceStartToken 0 1; tok FlowSequenceStartToken 1 2;
    tok ScalarToken 2 3; tok FlowSequenceEndToken 3 4;
    tok FlowEntryToken 4 5; tok ScalarToken 6 7;
    tok FlowSequenceEndToken 7 8; tok StreamEndToken 8 8 ].

(** A flow sequence start closed by a block end, and a block sequence start
    closed by a flow sequence end. *)
Definition doc_flow_block : Loader :=
  [ tok FlowSequenceStartToken 0 1; tok BlockEndToken 1 1;
    tok StreamEndToken 1 1 ].

Definition doc_block_flow : Loader :=
  [ tok BlockSequenceStartToken 0 0; tok BlockEntryToken 0 1;
    tok ScalarToken 2 3; tok FlowSequenceEndToken 3 4;
    tok StreamEndToken 4 4 ].

(** [[1, 2] with the closing bracket missing. *)
Definition doc_unclosed : Loader :=
  [ tok FlowSequenceStartToken 0 1; tok ScalarToken 1 2;
    tok FlowEntryToken 2 3; tok ScalarToken 4 5; tok StreamEndToken 5 5 ].

(** A scalar token whose end mark lies before its start mark. *)
Definition doc_backwards : Loader := [tok ScalarToken 5 3].

(** A sequence whose element lies after its closing token. *)
Definition doc_outside : Loader :=
  [ tok FlowSequenceStartToken 0 1; tok ScalarToken 7 9;
    tok FlowSequenceEndToken 2 3 ].

(** A block sequence with its own end: the matched form of [doc_block_flow]. *)
Definition doc_block_block : Loader :=
  [ tok BlockSequenceStartToken 0 0; tok BlockEntryToken 0 1;
    tok ScalarToken 2 3; tok BlockEndToken 3 4;
    tok StreamEndToken 4 4 ].

(** The tokens a call has taken off the loader, given the loader before and
    the loader after. *)
Definition consumed (before after : Loader) : list Token :=
  firstn (List.length before - List.length after) before.

(** The tokens that stand for a value: scalars and sequence starts. *)
Definition opens_value (t : Token) : bool :=
  isinstance (Some t)
    [ScalarToken; FlowSequenceStartToken; BlockSequenceStartToken].

(** The walks that raise, as a relation between the loader before, the
    token the exception carries ([None] at the end of the stream) and the
    loader after.  [stuck_elements] is the loop, which raises when the walk
    of an element does. *)
Inductive stuck_value : Loader -> option Token -> Loader -> Prop :=
| stuck_end : stuck_value [] None []
| stuck_token t rest :
    opens_value t = false ->
    stuck_value (t :: rest) (Some t) rest
| stuck_sequence s l tok l' :
    isinstance (Some s) sequence_starts = true ->
    stuck_elements l tok l' ->
    stuck_value (s :: l) tok l'
with stuck_elements : Loader -> option Token -> Loader -> Prop :=
| stuck_element l tok l' :
    isinstance (hd_error l) sequence_ends = false ->
    stuck_value (skip BlockEntryToken l) tok l' ->
    stuck_elements l tok l'
| stuck_next l sub l2 tok l' :
    isinstance (hd_error l) sequence_ends = false ->
    walk_value (skip BlockEntryToken l) sub l2 ->
    stuck_elements (skip FlowEntryToken l2) tok l' ->
    stuck_elements l tok l'.

Scheme stuck_value_ind2 := Minimality for stuck_value Sort Prop
  with stuck_elements_ind2 := Minimality for stuck_elements Sort Prop.
Combined Scheme stuck_mutind from stuck_value_ind2, stuck_elements_ind2.

(** What is left of the loader from the token an exception carries on. *)
Definition rest_at (tok : option Token) (after : Loader) : Loader :=
  match tok with
  | Some t => t :: after
  | None => after
  end.

(** A scalar token, to go on with where a value is due. *)
Definition any_scalar : Token := tok ScalarToken 0 0.

(** An end token, to close a sequence with. *)
Definition any_end : Token := tok FlowSequenceEndToken 0 0.

(** Of two entries, the later one in the list lies below the earlier one,
    inside its span, or the earlier one ends before the later one starts. *)
Definition nested_or_apart (es : types.TSourceMapEntries) : Prop :=
  forall m n p q a b,
    m < n ->
    nth_error es m = Some (p, a) ->
    nth_error es n = Some (q, b) ->
    ((exists r, q = (p ++ "/" ++ r)%string)
     /\ (start_offset a <= start_offset b)%Z
     /\ (end_offset b <= end_offset a)%Z)
    \/ (end_offset a <= start_offset b)%Z.

(** A source map that has, with the entry of an element, the entry of the
    sequence it belongs to and the entries of the elements before it. *)
Definition closed_under_parents (es : types.TSourceMapEntries) : Prop :=
  forall q i a,
    In ((q ++ "/" ++ decimal i)%string, a) es ->
    (exists b, In (q, b) es)
    /\ forall j, j < i -> exists b, In ((q ++ "/" ++ decimal j)%string, b) es.

(** What a result says of addresses: the pointers in their order and how
    many tokens are left; nothing, when the call raised. *)
Definition addressing (r : outcome types.TSourceMapEntries * Loader)
  : option (list string * nat) :=
  match fst r with
  | Return es => Some (map fst es, List.length (snd r))
  | _ => None
  end.

(** [[ [ 1 ] , 2 ]]: the tokens of [doc_nested] at other positions. *)
Definition doc_nested_spaced : Loader :=
  [ tok FlowSequenceStartToken 0 1; tok FlowSequenceStartToken 2 3;
    tok ScalarToken 4 5; tok FlowSequenceEndToken 6 7;
    tok FlowEntryToken 8 9; tok ScalarToken 10 11;
    tok FlowSequenceEndToken 12 13; tok StreamEndToken 13 13 ].

(** The separators: block entry and flow entry tokens. *)
Definition separator (t : Token) : bool :=
  isinstance (Some t) [BlockEntryToken; FlowEntryToken].

(** A stream with its separators taken out. *)
Definition strip (l : list Token) : list Token :=
  filter (fun t => negb (separator t)) l.


(** The order of a walk on paths: a sequence before its elements, an
    element before the later ones and before all that is below them. *)
Inductive path_lt : list nat -> list nat -> Prop :=
| path_lt_nil i q : path_lt [] (i :: q)
| path_lt_index i j p q : i < j -> path_lt (i :: p) (j :: q)
| path_lt_below i p q : path_lt p q -> path_lt (i :: p) (i :: q).

(** The tokens that no successful walk takes: all but scalars, sequence
    starts, sequence ends and separators. *)
Definition foreign (t : Token) : bool :=
  negb (isinstance (Some t)
          [ScalarToken; FlowSequenceStartToken; BlockSequenceStartToken;
           FlowSequenceEndToken; BlockEndToken;
           BlockEntryToken; FlowEntryToken]).

(** The tokens of the text "- 1", a line break, "]", after the stream
    start: a block sequence that a flow sequence end follows. *)
Definition doc_dash_bracket : Loader :=
  [ {| class := BlockSequenceStartToken;
       start_mark := {| yaml.line := 0; yaml.column := 0; yaml.index := 0 |};
       end_mark := {| yaml.line := 0; yaml.column := 0; yaml.index := 0 |} |};
    {| class := BlockEntryToken;
       start_mark := {| yaml.line := 0; yaml.column := 0; yaml.index := 0 |};
       end_mark := {| yaml.line := 0; yaml.column := 1; yaml.index := 1 |} |};
    {| class := ScalarToken;
       start_mark := {| yaml.line := 0; yaml.column := 2; yaml.index := 2 |};
       end_mark := {| yaml.line := 0; yaml.column := 3; yaml.index := 3 |} |};
    {| class := FlowSequenceEndToken;
       start_mark := {| yaml.line := 1; yaml.column := 0; yaml.index := 4 |};
       end_mark := {| yaml.line := 1; yaml.column := 1; yaml.index := 5 |} |};
    {| class := StreamEndToken;
       start_mark := {| yaml.line := 1; yaml.column := 1; yaml.index := 5 |};
       end_mark := {| yaml.line := 1; yaml.column := 1; yaml.index := 5 |} |} ].

Example value_flow_pair :
  value doc_flow_pair
  = (Return [("", span 0 6); ("/0", span 1 2); ("/1", span 4 5)],
     [tok StreamEndToken 6 6]).
Proof. reflexivity. Qed.

(** ** The equations of the walk

    Each function, one call unfolded, on the loader as a list. *)

Lemma primitive_eq (l : Loader) :
  primitive l =
  match l with
  | [] => (Raise (error_scalar None), [])
  | t :: rest =>
      if isinstance (Some t) [ScalarToken]
      then (Return [("", entry_of t t)], rest)
      else (Raise (error_scalar (Some t)), rest)
  end.
Proof.
  destruct l as [|t rest]; [reflexivity|].
  unfold primitive, bind, get_token, narrow; simpl.
  destruct (class_eqb (class t) ScalarToken); reflexivity.
Qed.

Lemma value_fuel_S (f : nat) (l : Loader) :
  value_fuel (S f) l =
  if isinstance (hd_error l) sequence_starts
  then sequence_fuel f l else primitive l.
Proof.
  simpl. unfold bind, peek_token.
  destruct (isinstance (hd_error l) _); reflexivity.
Qed.

Lemma sequence_fuel_S (f : nat) (l : Loader) :
  sequence_fuel (S f) l =
  match l with
  | [] => (Raise (error_start None), [])
  | s :: l1 =>
      if isinstance (Some s) sequence_starts then
        match while_fuel f 0 [] l1 with
        | (Return state, l2) =>
            match l2 with
            | [] => (Raise (error_end None), [])
            | e :: l3 =>
                if isinstance (Some e) sequence_ends
                then (Return (("", entry_of s e) :: snd state), l3)
                else (Raise (error_end (Some e)), l3)
            end
        | (Raise err, l2) => (Raise err, l2)
        | (OutOfFuel, l2) => (OutOfFuel, l2)
        end
      else (Raise (error_start (Some s)), l1)
  end.
Proof.
  destruct l as [|s l1]; [reflexivity|].
  cbn [sequence_fuel]. unfold bind at 1. unfold get_token at 1.
  cbn [hd_error tl]. unfold narrow at 1. fold sequence_starts.
  destruct (isinstance (Some s) sequence_starts); [|reflexivity].
  unfold bind at 1.
  destruct (while_fuel f 0 [] l1) as [[state|err|] l2]; try reflexivity.
  unfold bind, get_token, narrow. destruct l2 as [|e l3]; [reflexivity|].
  cbn [hd_error tl]. fold sequence_ends.
  destruct (isinstance (Some e) sequence_ends); reflexivity.
Qed.

Lemma while_fuel_S (f i : nat) (es : types.TSourceMapEntries) (l : Loader) :
  while_fuel (S f) i es l =
  if isinstance (hd_error l) sequence_ends then (Return (i, es), l)
  else
    match value_fuel f (skip BlockEntryToken l) with
    | (Return sub, l2) =>
        while_fuel f (i + 1) (es ++ reprefix i sub) (skip FlowEntryToken l2)
    | (Raise err, l2) => (Raise err, l2)
    | (OutOfFuel, l2) => (OutOfFuel, l2)
    end.
Proof.
  cbn [while_fuel]. unfold bind at 1. unfold peek_token at 1.
  fold sequence_ends.
  destruct (isinstance (hd_error l) sequence_ends); [reflexivity|].
  unfold bind at 1. unfold peek_token at 1. unfold bind at 1.
  assert (Hskip : forall c (k : Loader),
             (if isinstance (hd_error k) [c]
              then bind get_token (fun _ => ret tt) else ret tt) k
             = (Return tt, skip c k)).
  { intros c k. unfold skip.
    destruct (isinstance (hd_error k) [c]); reflexivity. }
  rewrite Hskip. unfold bind at 1.
  destruct (value_fuel f (skip BlockEntryToken l)) as [[sub|err|] l2];
    try reflexivity.
  unfold bind at 1. unfold peek_token at 1. unfold bind at 1.
  rewrite Hskip. reflexivity.
Qed.

(** ** Fuel

    More fuel does not change an outcome that was reached. *)

Lemma fuel_step (f : nat) :
  (forall l, finished (value_fuel f l) -> value_fuel (S f) l = value_fuel f l)
  /\ (forall l, finished (sequence_fuel f l) ->
                sequence_fuel (S f) l = sequence_fuel f l)
  /\ (forall i es l, finished (while_fuel f i es l) ->
                     while_fuel (S f) i es l = while_fuel f i es l).
Proof.
  unfold finished.
  induction f as [|f (IHv & IHs & IHw)].
  - repeat split; intros; simpl in *; exfalso; auto.
  - split; [|split].
    + intros l H. rewrite (value_fuel_S (S f)). rewrite value_fuel_S in H |- *.
      destruct (isinstance (hd_error l) sequence_starts); auto.
    + intros l H. rewrite (sequence_fuel_S (S f)).
      rewrite sequence_fuel_S in H |- *.
      destruct l as [|s l1]; [reflexivity|].
      destruct (isinstance (Some s) sequence_starts); [|reflexivity].
      destruct (while_fuel f 0 [] l1) as [[state|err|] l2] eqn:E;
        try (rewrite IHw; rewrite E; simpl; [reflexivity|discriminate]).
      exfalso; auto.
    + intros i es l H. rewrite (while_fuel_S (S f)).
      rewrite while_fuel_S in H |- *.
      destruct (isinstance (hd_error l) sequence_ends); [reflexivity|].
      destruct (value_fuel f (skip BlockEntryToken l)) as [[sub|err|] l2] eqn:E.
      * rewrite IHv; rewrite E; [auto|discriminate].
      * rewrite IHv; rewrite E; [reflexivity|discriminate].
      * exfalso; auto.
Qed.

(** From one more unit of fuel to any larger amount. *)
Ltac more_fuel :=
  let IH := fresh "IHfuel" in
  let Hf := fresh "Hfinished" in
  induction 1 as [|? ? IH]; intro Hf; [reflexivity|];
  rewrite <- (IH Hf); apply fuel_step; rewrite (IH Hf); exact Hf.

(** Whichever of two amounts of fuel is the larger, both reach the outcome. *)
Ltac either_fuel f l le total :=
  let Hle := fresh "Hle" in
  destruct (Nat.le_ge_cases f (enough l)) as [Hle|Hle];
  [apply le; assumption|symmetry; apply le; [exact Hle|apply total]].

Lemma value_fuel_le (f f' : nat) (l : Loader) :
  f <= f' -> finished (value_fuel f l) -> value_fuel f' l = value_fuel f l.
Proof. more_fuel. Qed.

Lemma sequence_fuel_le (f f' : nat) (l : Loader) :
  f <= f' -> finished (sequence_fuel f l) ->
  sequence_fuel f' l = sequence_fuel f l.
Proof. more_fuel. Qed.

Lemma while_fuel_le (f f' i : nat) es (l : Loader) :
  f <= f' -> finished (while_fuel f i es l) ->
  while_fuel f' i es l = while_fuel f i es l.
Proof. more_fuel. Qed.

(** ** Every successful call is a walk *)

Lemma reprefix_children (i : nat) (es : types.TSourceMapEntries) subs sub :
  es ++ reprefix i sub ++ children_from (S i) subs
  = (es ++ reprefix i sub) ++ children_from (i + 1) subs.
Proof. rewrite app_assoc. replace (i + 1) with (S i) by lia. reflexivity. Qed.

Lemma fuel_sound (f : nat) :
  (forall l es l', value_fuel f l = (Return es, l') -> walk_value l es l')
  /\ (forall l es l', sequence_fuel f l = (Return es, l') ->
        walk_value l es l' /\ isinstance (hd_error l) sequence_starts = true)
  /\ (forall i es l k out l', while_fuel f i es l = (Return (k, out), l') ->
        exists subs, walk_elements l subs l'
                     /\ k = i + List.length subs
                     /\ out = es ++ children_from i subs).
Proof.
  induction f as [|f (IHv & IHs & IHw)].
  - repeat split; intros; discriminate.
  - split; [|split].
    + intros l es l' H. rewrite value_fuel_S in H.
      destruct (isinstance (hd_error l) sequence_starts) eqn:Es.
      * apply IHs in H. tauto.
      * rewrite primitive_eq in H. destruct l as [|t rest]; [discriminate|].
        destruct (isinstance (Some t) [ScalarToken]) eqn:Et; [|discriminate].
        inversion H; subst. constructor; assumption.
    + intros l es l' H. rewrite sequence_fuel_S in H.
      destruct l as [|s l1]; [discriminate|].
      destruct (isinstance (Some s) sequence_starts) eqn:Es; [|discriminate].
      destruct (while_fuel f 0 [] l1) as [[[k out]|err|] l2] eqn:E;
        try discriminate.
      destruct l2 as [|e l3]; [discriminate|].
      destruct (isinstance (Some e) sequence_ends) eqn:Ee; [|discriminate].
      inversion H; subst; clear H.
      apply IHw in E. destruct E as (subs & Hw & _ & ->).
      split; [|exact Es]. simpl. econstructor; eassumption.
    + intros i es l k out l' H. rewrite while_fuel_S in H.
      destruct (isinstance (hd_error l) sequence_ends) eqn:Ee.
      * inversion H; subst. exists []. simpl.
        rewrite app_nil_r, Nat.add_0_r. repeat split. constructor; assumption.
      * destruct (value_fuel f (skip BlockEntryToken l)) as [[sub|err|] l2] eqn:E;
          try discriminate.
        apply IHv in E. apply IHw in H. destruct H as (subs & Hw & -> & ->).
        exists (sub :: subs). simpl. repeat split.
        -- econstructor; eassumption.
        -- lia.
        -- symmetry. apply reprefix_children.
Qed.

(** ** What a walk takes off the loader *)

Lemma skip_cases (c : TokenClass) (l : Loader) :
  skip c l = l \/ exists t, l = t :: skip c l /\ isinstance (Some t) [c] = true.
Proof.
  unfold skip. destruct l as [|t l]; [left; reflexivity|]. simpl hd_error.
  destruct (isinstance (Some t) [c]) eqn:E; [right|left; reflexivity].
  exists t. split; [reflexivity|exact E].
Qed.

Lemma skip_length (c : TokenClass) (l : Loader) :
  List.length (skip c l) <= List.length l.
Proof.
  destruct (skip_cases c l) as [->|(t & E & _)]; [lia|].
  rewrite E at 2. simpl. lia.
Qed.

Lemma walk_length :
  (forall l es l', walk_value l es l' -> List.length l' < List.length l)
  /\ (forall l subs l', walk_elements l subs l' ->
        List.length l' <= List.length l).
Proof.
  apply walk_mutind; intros; simpl in *; try lia.
  pose proof (skip_length BlockEntryToken l).
  pose proof (skip_length FlowEntryToken l2). lia.
Qed.

(** [enough] is enough: with it no call runs out of fuel. *)
Lemma fuel_total (f : nat) :
  (forall l, 3 * List.length l + 1 <= f -> finished (value_fuel f l))
  /\ (forall l, 3 * List.length l <= f -> 1 <= f -> finished (sequence_fuel f l))
  /\ (forall i es l, 3 * List.length l + 2 <= f -> finished (while_fuel f i es l)).
Proof.
  unfold finished.
  induction f as [|f (IHv & IHs & IHw)].
  - repeat split; intros; lia.
  - split; [|split].
    + intros l Hf. rewrite value_fuel_S.
      destruct (isinstance (hd_error l) sequence_starts) eqn:Es.
      * destruct l as [|t l]; [discriminate|]. simpl in Hf.
        apply IHs; simpl; lia.
      * rewrite primitive_eq. destruct l as [|t l]; [discriminate|].
        destruct (isinstance (Some t) [ScalarToken]); discriminate.
    + intros l Hf _. rewrite sequence_fuel_S.
      destruct l as [|s l1]; [discriminate|]. simpl in Hf.
      destruct (isinstance (Some s) sequence_starts); [|discriminate].
      assert (Hw : fst (while_fuel f 0 [] l1) <> OutOfFuel) by (apply IHw; lia).
      destruct (while_fuel f 0 [] l1) as [[state|err|] l2];
        [|discriminate|exfalso; apply Hw; reflexivity].
      destruct l2 as [|e l3]; [discriminate|].
      destruct (isinstance (Some e) sequence_ends); discriminate.
    + intros i es l Hf. rewrite while_fuel_S.
      destruct (isinstance (hd_error l) sequence_ends); [discriminate|].
      pose proof (skip_length BlockEntryToken l) as Hb.
      assert (Hv : fst (value_fuel f (skip BlockEntryToken l)) <> OutOfFuel)
        by (apply IHv; lia).
      destruct (value_fuel f (skip BlockEntryToken l)) as [[sub|err|] l2] eqn:E;
        [|discriminate|exfalso; apply Hv; reflexivity].
      apply (proj1 (fuel_sound f)) in E. apply (proj1 walk_length) in E.
      pose proof (skip_length FlowEntryToken l2). apply IHw. lia.
Qed.

Lemma value_total (l : Loader) : finished (value l).
Proof. apply (proj1 (fuel_total (enough l))). unfold enough. lia. Qed.

Lemma sequence_total (l : Loader) : finished (sequence l).
Proof. apply (proj1 (proj2 (fuel_total (enough l)))); unfold enough; lia. Qed.

Lemma while_loop_total i es (l : Loader) : finished (while_loop i es l).
Proof. apply (proj2 (proj2 (fuel_total (enough l)))); unfold enough; lia. Qed.

(** An outcome reached with some fuel is the outcome of the function. *)
Lemma value_fuel_value (f : nat) (l : Loader) :
  finished (value_fuel f l) -> value l = value_fuel f l.
Proof.
  intro H. unfold value. either_fuel f l value_fuel_le value_total.
Qed.

Lemma sequence_fuel_sequence (f : nat) (l : Loader) :
  finished (sequence_fuel f l) -> sequence l = sequence_fuel f l.
Proof.
  intro H. unfold sequence. either_fuel f l sequence_fuel_le sequence_total.
Qed.

Lemma while_fuel_while_loop (f i : nat) es (l : Loader) :
  finished (while_fuel f i es l) -> while_loop i es l = while_fuel f i es l.
Proof.
  intro H. unfold while_loop. either_fuel f l while_fuel_le while_loop_total.
Qed.

(** The functions satisfy the equations of the source text. *)
Lemma value_eq (l : Loader) :
  value l =
  if isinstance (hd_error l) sequence_starts then sequence l else primitive l.
Proof.
  pose proof (value_total l) as H. unfold value in *. unfold enough in *.
  replace (3 * List.length l + 3) with (S (3 * List.length l + 2)) in * by lia.
  rewrite value_fuel_S in *.
  destruct (isinstance (hd_error l) sequence_starts); [|reflexivity].
  symmetry. apply sequence_fuel_sequence. exact H.
Qed.

Lemma sequence_eq (l : Loader) :
  sequence l =
  match l with
  | [] => (Raise (error_start None), [])
  | s :: l1 =>
      if isinstance (Some s) sequence_starts then
        match while_loop 0 [] l1 with
        | (Return state, l2) =>
            match l2 with
            | [] => (Raise (error_end None), [])
            | e :: l3 =>
                if isinstance (Some e) sequence_ends
                then (Return (("", entry_of s e) :: snd state), l3)
                else (Raise (error_end (Some e)), l3)
            end
        | (Raise err, l2) => (Raise err, l2)
        | (OutOfFuel, l2) => (OutOfFuel, l2)
        end
      else (Raise (error_start (Some s)), l1)
  end.
Proof.
  pose proof (sequence_total l) as H. unfold sequence in *. unfold enough in *.
  replace (3 * List.length l + 3) with (S (3 * List.length l + 2)) in * by lia.
  rewrite sequence_fuel_S in *.
  destruct l as [|s l1]; [reflexivity|].
  destruct (isinstance (Some s) sequence_starts); [|reflexivity].
  rewrite <- while_fuel_while_loop; [reflexivity|].
  unfold finished in *.
  destruct (while_fuel _ 0 [] l1) as [[state|err|] l2]; simpl in *;
    try discriminate. exfalso. apply H. reflexivity.
Qed.

Lemma while_loop_eq (i : nat) es (l : Loader) :
  while_loop i es l =
  if isinstance (hd_error l) sequence_ends then (Return (i, es), l)
  else
    match value (skip BlockEntryToken l) with
    | (Return sub, l2) =>
        while_loop (i + 1) (es ++ reprefix i sub) (skip FlowEntryToken l2)
    | (Raise err, l2) => (Raise err, l2)
    | (OutOfFuel, l2) => (OutOfFuel, l2)
    end.
Proof.
  pose proof (while_loop_total i es l) as H.
  unfold while_loop in H |- * at 1. unfold enough in *.
  replace (3 * List.length l + 3) with (S (3 * List.length l + 2)) in * by lia.
  rewrite while_fuel_S in *.
  destruct (isinstance (hd_error l) sequence_ends); [reflexivity|].
  unfold finished in *.
  destruct (value_fuel _ (skip BlockEntryToken l)) as [[sub|err|] l2] eqn:E.
  - rewrite (value_fuel_value (3 * List.length l + 2)); rewrite E;
      [|discriminate].
    symmetry. apply while_fuel_while_loop. exact H.
  - rewrite (value_fuel_value (3 * List.length l + 2)); rewrite E;
      [reflexivity|discriminate].
  - exfalso. apply H. reflexivity.
Qed.

(** ** The functions and the walks agree *)

Lemma value_walk (l : Loader) es l' :
  value l = (Return es, l') -> walk_value l es l'.
Proof. apply (proj1 (fuel_sound (enough l))). Qed.

Lemma sequence_walk (l : Loader) es l' :
  sequence l = (Return es, l') ->
  walk_value l es l' /\ isinstance (hd_error l) sequence_starts = true.
Proof. apply (proj1 (proj2 (fuel_sound (enough l)))). Qed.

Lemma while_loop_walk (i : nat) es (l : Loader) k out l' :
  while_loop i es l = (Return (k, out), l') ->
  exists subs, walk_elements l subs l'
               /\ k = i + List.length subs /\ out = es ++ children_from i subs.
Proof. apply (proj2 (proj2 (fuel_sound (enough l)))). Qed.

Lemma walk_complete :
  (forall l es l', walk_value l es l' -> value l = (Return es, l'))
  /\ (forall l subs l', walk_elements l subs l' ->
        forall i es, while_loop i es l
                     = (Return (i + List.length subs, es ++ children_from i subs), l')).
Proof.
  apply walk_mutind.
  - intros t rest Ht Hs. rewrite value_eq. simpl hd_error. rewrite Hs.
    rewrite primitive_eq, Ht. reflexivity.
  - intros s l subs e rest Hs _ IH He. rewrite value_eq. simpl hd_error.
    rewrite Hs, sequence_eq, Hs, IH, He. reflexivity.
  - intros l He i es. rewrite while_loop_eq, He. simpl.
    rewrite Nat.add_0_r, app_nil_r. reflexivity.
  - intros l sub l2 subs l' He _ IHv _ IHw i es.
    rewrite while_loop_eq, He, IHv, IHw. simpl.
    rewrite <- reprefix_children.
    replace (i + 1 + List.length subs) with (i + S (List.length subs)) by lia.
    reflexivity.
Qed.

Lemma walk_value_sequence (l : Loader) es l' :
  walk_value l es l' -> isinstance (hd_error l) sequence_starts = true ->
  sequence l = (Return es, l').
Proof.
  intros H Hs. apply (proj1 walk_complete) in H. rewrite value_eq, Hs in H.
  exact H.
Qed.

(** ** Dispatch, scalars and small documents *)

(** C6: [value] looks at the next token without taking it; when that token
    is a flow or block sequence start it returns what [sequence] returns on
    the same loader, and otherwise what [primitive] returns on it. *)
Theorem value_dispatch (loader : Loader) :
  peek_token loader = (Return (hd_error loader), loader)
  /\ value loader =
     if isinstance (hd_error loader)
          [FlowSequenceStartToken; BlockSequenceStartToken]
     then sequence loader
     else primitive loader.
Proof. split; [reflexivity|apply value_eq]. Qed.

(** C7: [primitive] takes one token off the loader; a token that is not a
    scalar (or no token at all) raises [InvalidYamlError], and a scalar
    yields the single entry with the empty pointer and the token's own start
    and end marks. *)
Theorem primitive_one_token (loader : Loader) :
  snd (primitive loader) = tl loader
  /\ fst (primitive loader) =
     match hd_error loader with
     | Some t =>
         match class t with
         | ScalarToken =>
             Return
               [("", {| types.value_start :=
                          {| types.line := yaml.line (start_mark t);
                             types.column := yaml.column (start_mark t);
                             types.offset := yaml.index (start_mark t) |};
                        types.value_end :=
                          {| types.line := yaml.line (end_mark t);
                             types.column := yaml.column (end_mark t);
                             types.offset := yaml.index (end_mark t) |} |})]
         | _ =>
             Raise (errors.Build_InvalidYamlError
                      "expected scalar but received" (Some t))
         end
     | None =>
         Raise (errors.Build_InvalidYamlError "expected scalar but received" None)
     end.
Proof.
  rewrite primitive_eq. destruct loader as [|[c sm em] rest];
    [split; reflexivity|].
  destruct c; split; reflexivity.
Qed.

(** C8: on a sequence start followed at once by the end of its form,
    [sequence] returns the self entry alone, from the start token's start
    mark to the end token's end mark. *)
Theorem sequence_empty (s e : Token) (rest : Loader) :
  closes s e ->
  sequence (s :: e :: rest)
  = (Return
       [("", {| types.value_start :=
                  {| types.line := yaml.line (start_mark s);
                     types.column := yaml.column (start_mark s);
                     types.offset := yaml.index (start_mark s) |};
                types.value_end :=
                  {| types.line := yaml.line (end_mark e);
                     types.column := yaml.column (end_mark e);
                     types.offset := yaml.index (end_mark e) |} |})],
     rest).
Proof.
  destruct s as [cs ss se], e as [ce es ee].
  intros [[Hs He]|[Hs He]]; simpl in Hs, He; subst cs ce;
    rewrite sequence_eq, while_loop_eq; reflexivity.
Qed.

Lemma sequence_empty_witness :
  sequence doc_empty
  = (Return
       [("", {| types.value_start :=
                  {| types.line := 0; types.column := 0; types.offset := 0 |};
                types.value_end :=
                  {| types.line := 0; types.column := 2; types.offset := 2 |} |})],
     [tok StreamEndToken 2 2]).
Proof.
  apply (sequence_empty (tok FlowSequenceStartToken 0 1)
                        (tok FlowSequenceEndToken 1 2)).
  left. split; reflexivity.
Defined.

(** C9: on the tokens of [[[1], 2]], [value] returns entries for the
    pointers "", "/0", "/0/0" and "/1", in this order and no others. *)
Theorem value_nested :
  value doc_nested
  = (Return [("", span 0 8); ("/0", span 1 4); ("/0/0", span 2 3);
             ("/1", span 6 7)],
     [tok StreamEndToken 8 8]).
Proof. reflexivity. Qed.

(** ** The form of the end token is not compared with the start's *)

(** C1, as stated, fails: a start of one form closed by the end of the other
    form is walked to a source map, with no error. *)
Lemma sequence_mismatch_returns :
  sequence doc_flow_block = (Return [("", span 0 1)], [tok StreamEndToken 1 1])
  /\ sequence doc_block_flow
     = (Return [("", span 0 4); ("/0", span 2 3)], [tok StreamEndToken 4 4]).
Proof. split; reflexivity. Qed.

(** ** Pointers *)

Lemma string_app_assoc (a b c : string) :
  ((a ++ b) ++ c = a ++ (b ++ c))%string.
Proof. induction a as [|x a IH]; simpl; [reflexivity|now rewrite IH]. Qed.

Lemma string_app_inv_head (a x y : string) :
  (a ++ x = a ++ y)%string -> x = y.
Proof.
  induction a as [|c a IH]; simpl; intro H; [exact H|].
  injection H as H. auto.
Qed.

Lemma slash_free_uint (d : uint) : slash_free (NilEmpty.string_of_uint d) = true.
Proof. induction d; simpl; auto. Qed.

Lemma slash_free_decimal (n : nat) : slash_free (decimal n) = true.
Proof. apply slash_free_uint. Qed.

Lemma decimal_inj (m n : nat) : decimal m = decimal n -> m = n.
Proof.
  unfold decimal. intro H. apply DecimalNat.Unsigned.to_uint_inj.
  pose proof (NilEmpty.usu (Nat.to_uint m)) as Hm.
  pose proof (NilEmpty.usu (Nat.to_uint n)) as Hn.
  rewrite H in Hm. congruence.
Qed.

Lemma depth_app (a b : string) : depth (a ++ b) = depth a + depth b.
Proof.
  induction a as [|c a IH]; simpl; [reflexivity|]. rewrite IH. lia.
Qed.

Lemma depth_slash_free (s : string) : slash_free s = true -> depth s = 0.
Proof.
  induction s as [|c s IH]; simpl; [reflexivity|].
  destruct (Ascii.eqb c "/"); simpl; [discriminate|auto].
Qed.

Lemma depth_child_pointer (i : nat) (p : string) :
  depth (child_pointer i p) = S (depth p).
Proof.
  unfold child_pointer. simpl. rewrite depth_app.
  rewrite (depth_slash_free _ (slash_free_decimal i)). reflexivity.
Qed.

Lemma depth_pointer_of_path (path : list nat) :
  depth (pointer_of_path path) = List.length path.
Proof.
  induction path as [|i path IH]; [reflexivity|].
  simpl pointer_of_path. rewrite depth_child_pointer, IH. reflexivity.
Qed.

Lemma boundary_pointer_of_path (path : list nat) :
  boundary (pointer_of_path path).
Proof.
  destruct path as [|i path]; [left; reflexivity|right].
  simpl. unfold child_pointer. simpl. eauto.
Qed.

Lemma boundary_app (p q : string) :
  boundary p -> boundary (p ++ "/" ++ q).
Proof.
  intros [->|[p' ->]]; right; simpl; eauto.
Qed.

(** A segment without "/" is determined by the text up to the boundary. *)
Lemma segment_split (a b x y : string) :
  slash_free a = true -> slash_free b = true -> boundary x -> boundary y ->
  (a ++ x = b ++ y)%string -> a = b /\ x = y.
Proof.
  revert b. induction a as [|c a IH]; intros [|c' b] Ha Hb Hx Hy H; simpl in *.
  - auto.
  - exfalso. destruct Hx as [->|[x' ->]]; [discriminate|].
    injection H as <- _. simpl in Hb. discriminate.
  - exfalso. destruct Hy as [->|[y' ->]]; [discriminate|].
    injection H as -> _. simpl in Ha. discriminate.
  - injection H as <- H.
    apply andb_prop in Ha, Hb. destruct Ha as [_ Ha], Hb as [_ Hb].
    destruct (IH b Ha Hb Hx Hy H) as [-> ->]. auto.
Qed.

Lemma child_pointer_inj (i j : nat) (p q : string) :
  boundary p -> boundary q ->
  child_pointer i p = child_pointer j q -> i = j /\ p = q.
Proof.
  unfold child_pointer. simpl. intros Hp Hq H. injection H as H.
  apply segment_split in H; auto using slash_free_decimal.
  destruct H as [H ->]. apply decimal_inj in H. auto.
Qed.

Lemma child_pointer_app (i : nat) (p q : string) :
  (child_pointer i p ++ q = child_pointer i (p ++ q))%string.
Proof.
  unfold child_pointer. simpl. now rewrite string_app_assoc.
Qed.

(** ** The shape of a source map *)

Lemma string_app_nil_r (s : string) : (s ++ "")%string = s.
Proof. induction s as [|c s IH]; simpl; [reflexivity|now rewrite IH]. Qed.

Lemma reprefix_below (k : nat) sub : rooted sub -> Forall below (reprefix k sub).
Proof.
  intros (entry & rest & -> & Hrest). unfold reprefix. simpl. constructor.
  - exists k, []. reflexivity.
  - apply Forall_map. eapply Forall_impl; [|exact Hrest].
    intros [p a] (i & path & Hp). simpl in *. exists k, (i :: path).
    rewrite Hp. reflexivity.
Qed.

Lemma children_below subs :
  Forall rooted subs -> forall k, Forall below (children_from k subs).
Proof.
  induction 1 as [|sub subs Hsub _ IH]; intro k; simpl; [constructor|].
  apply Forall_app. split; [apply reprefix_below; exact Hsub|apply IH].
Qed.

Lemma walk_rooted :
  (forall l es l', walk_value l es l' -> rooted es)
  /\ (forall l subs l', walk_elements l subs l' -> Forall rooted subs).
Proof.
  apply walk_mutind.
  - intros. exists (entry_of t t), []. split; [reflexivity|constructor].
  - intros s l subs e rest _ _ IH _.
    exists (entry_of s e), (children_from 0 subs).
    split; [reflexivity|apply children_below; exact IH].
  - constructor.
  - intros. constructor; assumption.
Qed.

Lemma below_nonempty pe : below pe -> fst pe <> "".
Proof. intros (i & path & ->). discriminate. Qed.

Lemma count_root_below rest :
  Forall below rest -> count_occ string_dec (map fst rest) "" = 0.
Proof.
  induction 1 as [|pe rest Hpe _ IH]; [reflexivity|]. simpl.
  destruct (string_dec (fst pe) "") as [E|_]; [|exact IH].
  exfalso. exact (below_nonempty pe Hpe E).
Qed.

Lemma primitive_value (l : Loader) es l' :
  primitive l = (Return es, l') -> value l = (Return es, l').
Proof.
  intro H. rewrite value_eq. rewrite primitive_eq in H.
  destruct l as [|[c sm em] rest]; [discriminate|].
  destruct c; try discriminate. exact H.
Qed.

Lemma call_walk (walk : M types.TSourceMapEntries) (l : Loader) es l' :
  walk = value \/ walk = sequence \/ walk = primitive ->
  walk l = (Return es, l') -> walk_value l es l'.
Proof.
  intros [->|[->| ->]] H.
  - apply value_walk; exact H.
  - apply sequence_walk in H. tauto.
  - apply value_walk, primitive_value; exact H.
Qed.

(** C10: a successful call of [value], [sequence] or [primitive] returns a
    list that is not empty and starts with the entry of pointer ""; every
    other pointer is "/", a decimal index, and the pointer of a path (so it
    starts with "/" and an index); the empty pointer occurs once. *)
Theorem root_pointer_first (walk : M types.TSourceMapEntries)
    (loader : Loader) es loader' :
  walk = value \/ walk = sequence \/ walk = primitive ->
  walk loader = (Return es, loader') ->
  (exists entry rest,
      es = ("", entry) :: rest
      /\ Forall (fun pe => exists i path,
                    fst pe = ("/" ++ decimal i ++ pointer_of_path path)%string)
                rest)
  /\ count_occ string_dec (map fst es) "" = 1.
Proof.
  intros Hwalk H. pose proof (call_walk walk loader es loader' Hwalk H) as Hw.
  apply (proj1 walk_rooted) in Hw. destruct Hw as (entry & rest & -> & Hrest).
  split.
  - exists entry, rest. split; [reflexivity|exact Hrest].
  - simpl. rewrite (count_root_below rest Hrest). reflexivity.
Qed.

Lemma root_pointer_first_witness :
  exists entry rest,
    [("", span 0 8); ("/0", span 1 4); ("/0/0", span 2 3); ("/1", span 6 7)]
    = ("", entry) :: rest
    /\ Forall (fun pe => exists i path,
                  fst pe = ("/" ++ decimal i ++ pointer_of_path path)%string)
              rest.
Proof.
  refine (proj1 (root_pointer_first value doc_nested _
                   [tok StreamEndToken 8 8] _ _)).
  - left. reflexivity.
  - reflexivity.
Defined.

(** ** Element indices *)

Lemma children_from_concat (i : nat) subs :
  children_from i subs
  = List.concat (map (fun isub => reprefix (fst isub) (snd isub))
                (combine (seq i (List.length subs)) subs)).
Proof.
  revert i. induction subs as [|sub subs IH]; intro i; [reflexivity|].
  simpl. rewrite IH. reflexivity.
Qed.

Lemma immediate_reprefix (i : nat) sub :
  rooted sub ->
  filter immediate (map fst (reprefix i sub)) = [("/" ++ decimal i)%string].
Proof.
  intros (entry & rest & -> & Hrest). unfold reprefix. simpl map.
  assert (Hroot : child_pointer i "" = ("/" ++ decimal i)%string).
  { unfold child_pointer. now rewrite string_app_nil_r. }
  simpl filter. unfold immediate at 1.
  rewrite depth_child_pointer. simpl. rewrite Hroot. f_equal.
  induction Hrest as [|pe rest (j & path & Hpe) _ IH]; [reflexivity|].
  simpl. unfold immediate at 1.
  rewrite depth_child_pointer, Hpe, depth_pointer_of_path. simpl. exact IH.
Qed.

Lemma immediate_children subs :
  Forall rooted subs ->
  forall i,
    filter immediate (map fst (children_from i subs))
    = map (fun j => ("/" ++ decimal j)%string) (seq i (List.length subs)).
Proof.
  induction 1 as [|sub subs Hsub _ IH]; intro i; [reflexivity|].
  simpl. rewrite map_app, filter_app, (immediate_reprefix i sub Hsub), IH.
  reflexivity.
Qed.

Lemma child_names_NoDup (i k : nat) :
  NoDup (map (fun j => ("/" ++ decimal j)%string) (seq i k)).
Proof.
  induction (seq_NoDup k i) as [|j js Hj _ IH]; simpl; constructor; [|exact IH].
  rewrite in_map_iff. intros (j' & E & Hin). injection E as E.
  apply decimal_inj in E. subst j'. exact (Hj Hin).
Qed.

Lemma walk_elements_values l subs l' :
  walk_elements l subs l' ->
  Forall (fun sub => exists l1 l2, value l1 = (Return sub, l2)) subs.
Proof.
  induction 1 as [|l sub l2 subs l' _ Hv _ IH]; constructor; [|exact IH].
  exists (skip BlockEntryToken l), l2. apply (proj1 walk_complete). exact Hv.
Qed.

(** C2: when [sequence] returns, having left its loop with
    [sequence_index = k], the entries after the root are the sub-maps that
    [value] returned for the [k] elements walked, in the order walked, each
    re-addressed under "/" and its element's index; the pointers one level
    below the root are "/0", ..., "/(k-1)" in this order, each once. *)
Theorem sequence_child_pointers (loader : Loader) es loader' :
  sequence loader = (Return es, loader') ->
  exists k subs e,
    while_loop 0 [] (tl loader) = (Return (k, tl es), e :: loader')
    /\ walk_elements (tl loader) subs (e :: loader')
    /\ Forall (fun sub => exists l1 l2, value l1 = (Return sub, l2)) subs
    /\ List.length subs = k
    /\ tl es
       = List.concat (map (fun isub =>
                        map (fun pe => (("/" ++ decimal (fst isub) ++ fst pe)%string,
                                        snd pe))
                            (snd isub))
                     (combine (seq 0 k) subs))
    /\ filter immediate (map fst es)
       = map (fun i => ("/" ++ decimal i)%string) (seq 0 k)
    /\ NoDup (filter immediate (map fst es)).
Proof.
  intro H. apply sequence_walk in H. destruct H as [H Hstart].
  inversion H as [t rest Ht Hs|s l subs e rest Hs Hw He]; subst; clear H.
  - exfalso. simpl hd_error in Hstart. congruence.
  - exists (List.length subs), subs, e. simpl tl.
    pose proof (proj2 walk_rooted _ _ _ Hw) as Hsubs.
    assert (Hf : filter immediate (map fst (("", entry_of s e) :: children_from 0 subs))
                 = map (fun i => ("/" ++ decimal i)%string)
                       (seq 0 (List.length subs))).
    { simpl. apply immediate_children; exact Hsubs. }
    repeat split.
    + apply (proj2 walk_complete _ _ _ Hw 0 []).
    + exact Hw.
    + apply (walk_elements_values _ _ _ Hw).
    + apply children_from_concat.
    + exact Hf.
    + rewrite Hf. apply child_names_NoDup.
Qed.

Lemma sequence_child_pointers_witness :
  exists k subs e,
    while_loop 0 [] (tl doc_nested)
    = (Return (k, tl [("", span 0 8); ("/0", span 1 4); ("/0/0", span 2 3);
                      ("/1", span 6 7)]),
       e :: [tok StreamEndToken 8 8])
    /\ walk_elements (tl doc_nested) subs (e :: [tok StreamEndToken 8 8])
    /\ Forall (fun sub => exists l1 l2, value l1 = (Return sub, l2)) subs
    /\ List.length subs = k
    /\ tl [("", span 0 8); ("/0", span 1 4); ("/0/0", span 2 3); ("/1", span 6 7)]
       = List.concat (map (fun isub =>
                        map (fun pe => (("/" ++ decimal (fst isub) ++ fst pe)%string,
                                        snd pe))
                            (snd isub))
                     (combine (seq 0 k) subs))
    /\ filter immediate
         (map fst [("", span 0 8); ("/0", span 1 4); ("/0/0", span 2 3);
                   ("/1", span 6 7)])
       = map (fun i => ("/" ++ decimal i)%string) (seq 0 k)
    /\ NoDup (filter immediate
                (map fst [("", span 0 8); ("/0", span 1 4); ("/0/0", span 2 3);
                          ("/1", span 6 7)])).
Proof.
  apply (sequence_child_pointers doc_nested _ [tok StreamEndToken 8 8]).
  reflexivity.
Defined.

(** ** Parents before children *)

Lemma rooted_boundary sub p a : rooted sub -> In (p, a) sub -> boundary p.
Proof.
  intros (entry & rest & -> & Hrest) [E|Hin].
  - injection E as <- _. left. reflexivity.
  - rewrite Forall_forall in Hrest. destruct (Hrest _ Hin) as (i & path & Hp).
    simpl fst in Hp. rewrite Hp. apply boundary_pointer_of_path.
Qed.

Lemma nth_error_reprefix k sub i p a :
  nth_error (reprefix k sub) i = Some (p, a) ->
  exists p0, p = child_pointer k p0 /\ nth_error sub i = Some (p0, a).
Proof.
  unfold reprefix. rewrite nth_error_map.
  destruct (nth_error sub i) as [[p0 a0]|]; simpl; [|discriminate].
  intro E. injection E as <- <-. eauto.
Qed.

Lemma children_elem subs :
  Forall rooted subs ->
  forall k p a, In (p, a) (children_from k subs) ->
    exists m p0, k <= m /\ p = child_pointer m p0 /\ boundary p0.
Proof.
  induction 1 as [|sub subs Hsub _ IH]; intros k p a Hin; simpl in Hin;
    [contradiction|].
  apply in_app_or in Hin. destruct Hin as [Hin|Hin].
  - apply In_nth_error in Hin. destruct Hin as [i Hi].
    apply nth_error_reprefix in Hi. destruct Hi as (p0 & -> & Hi).
    exists k, p0. repeat split; [lia|].
    eapply rooted_boundary; [exact Hsub|]. eapply nth_error_In; exact Hi.
  - destruct (IH _ _ _ Hin) as (m & p0 & Hm & -> & Hb).
    exists m, p0. repeat split; [lia|exact Hb].
Qed.

Lemma reprefix_length k sub : List.length (reprefix k sub) = List.length sub.
Proof. apply length_map. Qed.

Lemma children_ordered subs :
  Forall rooted subs -> Forall parents_first subs ->
  forall k, parents_first (children_from k subs).
Proof.
  intros Hr Ho. revert Ho.
  induction Hr as [|sub subs Hsub Hsubs IH]; intros Ho k i j p q a b Hi Hj.
  - destruct i; discriminate.
  - inversion Ho as [|? ? Hosub Hosubs]; subst. simpl in Hi, Hj.
    destruct (Nat.lt_ge_cases i (List.length (reprefix k sub))) as [Li|Li];
      destruct (Nat.lt_ge_cases j (List.length (reprefix k sub))) as [Lj|Lj].
    + rewrite nth_error_app1 in Hi, Hj by assumption.
      apply nth_error_reprefix in Hi, Hj.
      destruct Hi as (p0 & -> & Hi), Hj as (p1 & Hp1 & Hj).
      rewrite child_pointer_app in Hp1.
      apply child_pointer_inj in Hp1.
      * destruct Hp1 as [_ Hp1]. subst p1. exact (Hosub _ _ _ _ _ _ Hi Hj).
      * apply boundary_app. eapply rooted_boundary; [exact Hsub|].
        eapply nth_error_In; exact Hi.
      * eapply rooted_boundary; [exact Hsub|]. eapply nth_error_In; exact Hj.
    + lia.
    + exfalso. rewrite nth_error_app2 in Hi by assumption.
      rewrite nth_error_app1 in Hj by assumption.
      apply nth_error_In in Hi.
      destruct (children_elem subs Hsubs _ _ _ Hi) as (m & p0 & Hm & -> & Hb).
      apply nth_error_reprefix in Hj. destruct Hj as (p1 & Hp1 & Hj).
      rewrite child_pointer_app in Hp1.
      apply child_pointer_inj in Hp1.
      * lia.
      * apply boundary_app; exact Hb.
      * eapply rooted_boundary; [exact Hsub|]. eapply nth_error_In; exact Hj.
    + rewrite nth_error_app2 in Hi, Hj by assumption.
      pose proof (IH Hosubs (S k) _ _ _ _ _ _ Hi Hj). lia.
Qed.

Lemma walk_parents_first :
  (forall l es l', walk_value l es l' -> parents_first es)
  /\ (forall l subs l', walk_elements l subs l' -> Forall parents_first subs).
Proof.
  apply walk_mutind.
  - intros t rest _ _ i j p q a b Hi Hj.
    destruct i as [|[|i]]; try discriminate. injection Hi as <- _.
    destruct j as [|[|j]]; discriminate.
  - intros s l subs e rest _ Hw IH _ i j p q a b Hi Hj.
    pose proof (proj2 walk_rooted _ _ _ Hw) as Hr.
    destruct j as [|j].
    + exfalso. simpl in Hj. injection Hj as Hj _.
      destruct p; discriminate.
    + destruct i as [|i]; [lia|]. simpl in Hi, Hj.
      pose proof (children_ordered subs Hr IH 0 _ _ _ _ _ _ Hi Hj). lia.
  - constructor.
  - intros. constructor; assumption.
Qed.

(** C5: the list [sequence] returns starts with the sequence's own entry,
    of pointer "", and no later entry has that pointer; and throughout the
    list the entry of a pointer [p] comes before every entry whose pointer
    continues [p] with "/", which is the same order inside the sub-map of
    each nested value. *)
Theorem sequence_parents_first (loader : Loader) es loader' :
  sequence loader = (Return es, loader') ->
  (exists entry rest,
      es = ("", entry) :: rest /\ Forall (fun pe => fst pe <> "") rest)
  /\ (forall i j p q a b,
         nth_error es i = Some (p, a) ->
         nth_error es j = Some ((p ++ "/" ++ q)%string, b) ->
         i < j).
Proof.
  intro H. apply sequence_walk in H. destruct H as [H _]. split.
  - destruct (proj1 walk_rooted _ _ _ H) as (entry & rest & -> & Hrest).
    exists entry, rest. split; [reflexivity|].
    eapply Forall_impl; [|exact Hrest]. apply below_nonempty.
  - exact (proj1 walk_parents_first _ _ _ H).
Qed.

Lemma sequence_parents_first_witness :
  (exists entry rest,
      [("", span 0 8); ("/0", span 1 4); ("/0/0", span 2 3); ("/1", span 6 7)]
      = ("", entry) :: rest /\ Forall (fun pe => fst pe <> "") rest)
  /\ (forall i j p q a b,
         nth_error [("", span 0 8); ("/0", span 1 4); ("/0/0", span 2 3);
                    ("/1", span 6 7)] i = Some (p, a) ->
         nth_error [("", span 0 8); ("/0", span 1 4); ("/0/0", span 2 3);
                    ("/1", span 6 7)] j = Some ((p ++ "/" ++ q)%string, b) ->
         i < j).
Proof.
  apply (sequence_parents_first doc_nested _ [tok StreamEndToken 8 8]).
  reflexivity.
Defined.

(** ** Sequences that are never closed *)

Lemma nesting_app (a b : list Token) :
  nesting (a ++ b) = (nesting a + nesting b)%Z.
Proof. induction a as [|t a IH]; simpl; [reflexivity|]. rewrite IH. lia. Qed.

(** The separator that [skip] takes off, if any. *)
Lemma skip_split (c : TokenClass) (l : Loader) :
  exists pre, l = pre ++ skip c l
              /\ (pre = [] \/ exists t, pre = [t] /\ isinstance (Some t) [c] = true).
Proof.
  destruct (skip_cases c l) as [E|(t & E & Ht)].
  - exists []. split; [symmetry; exact E|left; reflexivity].
  - exists [t]. split; [exact E|right; eauto].
Qed.

Lemma nesting_separator (c : TokenClass) (pre : list Token) :
  c = BlockEntryToken \/ c = FlowEntryToken ->
  pre = [] \/ (exists t, pre = [t] /\ isinstance (Some t) [c] = true) ->
  nesting pre = 0%Z.
Proof.
  intros Hc [->|(t & -> & Ht)]; [reflexivity|].
  destruct t as [ct sm em]. simpl. unfold bracket, isinstance in *. simpl in *.
  destruct Hc as [-> | ->]; destruct ct; try discriminate; reflexivity.
Qed.

Lemma walk_balanced :
  (forall l es l', walk_value l es l' ->
     exists c, l = c ++ l' /\ c <> [] /\ nesting c = 0%Z)
  /\ (forall l subs l', walk_elements l subs l' ->
        exists c, l = c ++ l' /\ nesting c = 0%Z).
Proof.
  apply walk_mutind.
  - intros [ct sm em] rest Ht Hs. exists [{| class := ct; start_mark := sm;
                                             end_mark := em |}].
    repeat split; [discriminate|].
    unfold isinstance in *. simpl in *. unfold bracket, isinstance. simpl.
    destruct ct; try discriminate; reflexivity.
  - intros [cs ss se] l subs [ce es ee] rest Hs _ (c & -> & Hc) He.
    exists ({| class := cs; start_mark := ss; end_mark := se |}
            :: c ++ [{| class := ce; start_mark := es; end_mark := ee |}]).
    repeat split.
    + simpl. rewrite <- app_assoc. reflexivity.
    + discriminate.
    + simpl. rewrite nesting_app, Hc. unfold isinstance in *. simpl in *.
      unfold bracket, isinstance. simpl.
      destruct cs; try discriminate; destruct ce; try discriminate; reflexivity.
  - intros l _. exists []. split; reflexivity.
  - intros l sub l2 subs l' _ _ (c1 & E1 & _ & H1) _ (c2 & E2 & H2).
    destruct (skip_split BlockEntryToken l) as (pre & Epre & Hpre).
    destruct (skip_split FlowEntryToken l2) as (mid & Emid & Hmid).
    exists (pre ++ c1 ++ mid ++ c2). split.
    + rewrite Epre at 1. rewrite E1. rewrite Emid at 1. rewrite E2.
      repeat rewrite <- app_assoc. reflexivity.
    + repeat rewrite nesting_app. rewrite H1, H2.
      rewrite (nesting_separator BlockEntryToken pre), (nesting_separator FlowEntryToken mid);
        auto.
Qed.

Lemma outcome_cases {A} (r : outcome A * Loader) :
  finished r ->
  (exists a, fst r = Return a) \/ (exists err, fst r = Raise err).
Proof.
  destruct r as [[a|err|] l]; unfold finished; simpl; intro H;
    [left; eauto|right; eauto|contradiction].
Qed.

Lemma walk_plain :
  (forall l es l', walk_value l es l' ->
     exists c, l = c ++ l' /\ existsb foreign c = false)
  /\ (forall l subs l', walk_elements l subs l' ->
        exists c, l = c ++ l' /\ existsb foreign c = false).
Proof.
  assert (Hsep : forall (c : TokenClass) (pre : list Token),
             c = BlockEntryToken \/ c = FlowEntryToken ->
             pre = [] \/ (exists t, pre = [t] /\ isinstance (Some t) [c] = true) ->
             existsb foreign pre = false).
  { intros c pre Hc [->|(t & -> & Ht)]; [reflexivity|].
    destruct t as [ct sm em]. unfold foreign, isinstance in *. simpl in *.
    destruct Hc as [-> | ->]; destruct ct; try discriminate; reflexivity. }
  apply walk_mutind.
  - intros [ct sm em] rest Ht _.
    exists [{| class := ct; start_mark := sm; end_mark := em |}].
    split; [reflexivity|]. unfold foreign, isinstance in *. simpl in *.
    destruct ct; try discriminate; reflexivity.
  - intros [cs ss se] l subs [ce es ee] rest Hs _ (c & -> & Hc) He.
    exists ({| class := cs; start_mark := ss; end_mark := se |}
            :: c ++ [{| class := ce; start_mark := es; end_mark := ee |}]).
    split; [simpl; rewrite <- app_assoc; reflexivity|].
    simpl. rewrite existsb_app, Hc. unfold foreign, isinstance in *.
    simpl in *.
    destruct cs; try discriminate; destruct ce; try discriminate; reflexivity.
  - intros l _. exists []. split; reflexivity.
  - intros l sub l2 subs l' _ _ (c1 & E1 & H1) _ (c2 & E2 & H2).
    destruct (skip_split BlockEntryToken l) as (pre & Epre & Hpre).
    destruct (skip_split FlowEntryToken l2) as (mid & Emid & Hmid).
    exists (pre ++ c1 ++ mid ++ c2). split.
    + rewrite Epre at 1. rewrite E1. rewrite Emid at 1. rewrite E2.
      repeat rewrite <- app_assoc. reflexivity.
    + rewrite !existsb_app, H1, H2.
      rewrite (Hsep BlockEntryToken pre), (Hsep FlowEntryToken mid); auto.
Qed.

(** C3, as stated, fails: the tokens of "- 1" and, on the next line, "]"
    open a block sequence and hold no block end, the end of its form; yet
    [sequence] and [value] return a source map, the flow sequence end
    having closed the block sequence. *)
Lemma sequence_closed_by_other_form :
  isinstance (hd_error doc_dash_bracket) [BlockSequenceStartToken] = true
  /\ existsb (fun t => isinstance (Some t) [BlockEndToken]) doc_dash_bracket
     = false
  /\ fst (sequence doc_dash_bracket)
     = Return
         [("", {| types.value_start :=
                    {| types.line := 0; types.column := 0; types.offset := 0 |};
                  types.value_end :=
                    {| types.line := 1; types.column := 1; types.offset := 5 |} |});
          ("/0", {| types.value_start :=
                      {| types.line := 0; types.column := 2; types.offset := 2 |};
                    types.value_end :=
                      {| types.line := 0; types.column := 3; types.offset := 3 |} |})]
  /\ fst (value doc_dash_bracket) = fst (sequence doc_dash_bracket).
Proof. repeat split. Qed.

(** C3, amended: on a loader that opens a sequence which no end token
    closes, [sequence] raises [InvalidYamlError] and returns no entries,
    and so does [value], to which the exception passes.  An end of either
    form closes the innermost open sequence, whatever its form; the
    sequence is never closed when, after every token read, a sequence is
    still open (more sequence starts than ends of either form so far) or a
    token has been read that no walk takes (none of scalar, sequence
    start, sequence end, separator). *)
Theorem sequence_unclosed (loader : Loader) :
  isinstance (hd_error loader) sequence_starts = true ->
  (forall n, 0 < n <= List.length loader ->
             (0 < nesting (firstn n loader))%Z
             \/ existsb foreign (firstn n loader) = true) ->
  (exists err, fst (sequence loader) = Raise err)
  /\ (exists err, fst (value loader) = Raise err).
Proof.
  intros Hstart Hopen.
  assert (Hs : exists err, fst (sequence loader) = Raise err).
  { destruct (outcome_cases (sequence loader) (sequence_total loader))
      as [[es H]|H]; [exfalso|exact H].
    destruct (sequence loader) as [r l'] eqn:E. simpl in H. subst r.
    apply sequence_walk in E. destruct E as [E _].
    destruct (proj1 walk_balanced _ _ _ E) as (c & Ec & Hne & Hc).
    destruct (proj1 walk_plain _ _ _ E) as (c' & Ec' & Hplain).
    assert (c' = c) as -> by (apply (app_inv_tail l'); congruence).
    subst loader. specialize (Hopen (List.length c)).
    rewrite firstn_app, firstn_all, Nat.sub_diag in Hopen.
    simpl in Hopen. rewrite app_nil_r, length_app in Hopen.
    destruct c as [|t c]; [congruence|]. simpl List.length in Hopen.
    destruct Hopen as [Hopen|Hopen]; [lia|lia|congruence]. }
  split; [exact Hs|]. rewrite value_eq, Hstart. exact Hs.
Qed.

Lemma sequence_unclosed_witness :
  (exists err, fst (sequence doc_unclosed) = Raise err)
  /\ (exists err, fst (value doc_unclosed) = Raise err).
Proof.
  apply (sequence_unclosed doc_unclosed).
  - reflexivity.
  - intros n Hn. simpl in Hn.
    assert (Hcases : n = 1 \/ n = 2 \/ n = 3 \/ n = 4 \/ n = 5) by lia.
    destruct Hcases as [->|[->|[->|[->| ->]]]];
      first [left; reflexivity | right; reflexivity].
Defined.

(** ** Spans *)

Lemma positions_app (a b : list Token) :
  positions (a ++ b) = positions a ++ positions b.
Proof. apply flat_map_app. Qed.

Lemma within_extend (u ps v : list Z) a :
  within ps a -> within (u ++ ps ++ v) a.
Proof.
  intros (x & y & z & ->). exists (u ++ x), y, (z ++ v).
  repeat (rewrite <- app_assoc; simpl). reflexivity.
Qed.

Lemma strongly_sorted_app_l (a b : list Z) :
  StronglySorted Z.le (a ++ b) -> StronglySorted Z.le a.
Proof.
  induction a as [|x a IH]; simpl; intro H; [constructor|].
  apply StronglySorted_inv in H. destruct H as [H Hx].
  constructor; [auto|]. apply Forall_app in Hx. tauto.
Qed.

Lemma strongly_sorted_app_r (a b : list Z) :
  StronglySorted Z.le (a ++ b) -> StronglySorted Z.le b.
Proof.
  induction a as [|x a IH]; simpl; intro H; [exact H|].
  apply StronglySorted_inv in H. tauto.
Qed.

Lemma strongly_sorted_hd (h x : Z) (t : list Z) :
  StronglySorted Z.le (h :: t) -> In x (h :: t) -> (h <= x)%Z.
Proof.
  intros H [->|Hin]; [lia|]. apply StronglySorted_inv in H.
  destruct H as [_ H]. rewrite Forall_forall in H. auto.
Qed.

Lemma strongly_sorted_last (h x : Z) (t : list Z) :
  StronglySorted Z.le (t ++ [h]) -> In x (t ++ [h]) -> (x <= h)%Z.
Proof.
  induction t as [|y t IH]; simpl; intros H Hin.
  - destruct Hin as [->|[]]. lia.
  - apply StronglySorted_inv in H. destruct H as [H Hy].
    destruct Hin as [->|Hin]; [|auto].
    rewrite Forall_forall in Hy. apply Hy. apply in_or_app. right. left.
    reflexivity.
Qed.

Lemma within_sorted (ps : list Z) a :
  StronglySorted Z.le ps -> within ps a ->
  (start_offset a <= end_offset a)%Z
  /\ In (start_offset a) ps /\ In (end_offset a) ps.
Proof.
  intros H (x & y & z & ->). repeat split.
  - apply strongly_sorted_app_r in H.
    apply (strongly_sorted_hd _ (end_offset a)) in H; [exact H|].
    right. apply in_or_app. right. left. reflexivity.
  - apply in_or_app. right. left. reflexivity.
  - apply in_or_app. right. right. apply in_or_app. right. left. reflexivity.
Qed.

Lemma spans_within c es :
  spans c es -> Forall (fun pe => within (positions c) (snd pe)) es.
Proof.
  intros (root & rest & mid & -> & Hc & Hrest). constructor; [|exact Hrest].
  exists [], mid, []. exact Hc.
Qed.

Lemma reprefix_within ps k sub :
  Forall (fun pe => within ps (snd pe)) sub ->
  Forall (fun pe => within ps (snd pe)) (reprefix k sub).
Proof.
  intro H. unfold reprefix. apply Forall_map. exact H.
Qed.

Lemma children_within ps subs :
  Forall (fun sub => Forall (fun pe => within ps (snd pe)) sub) subs ->
  forall k, Forall (fun pe => within ps (snd pe)) (children_from k subs).
Proof.
  induction 1 as [|sub subs Hsub _ IH]; intro k; simpl; [constructor|].
  apply Forall_app. split; [apply reprefix_within; exact Hsub|apply IH].
Qed.

Lemma walk_spans :
  (forall l es l', walk_value l es l' ->
     exists c, l = c ++ l' /\ spans c es)
  /\ (forall l subs l', walk_elements l subs l' ->
        exists c, l = c ++ l'
                  /\ Forall (fun sub =>
                               Forall (fun pe => within (positions c) (snd pe)) sub)
                            subs).
Proof.
  apply walk_mutind.
  - intros t rest _ _. exists [t]. split; [reflexivity|].
    exists (entry_of t t), [], []. repeat split. constructor.
  - intros s l subs e rest _ _ (c & -> & Hc) _. exists (s :: c ++ [e]). split.
    + simpl. rewrite <- app_assoc. reflexivity.
    + exists (entry_of s e), (children_from 0 subs),
        (yaml.index (end_mark s) :: positions c ++ [yaml.index (start_mark e)]).
      repeat split.
      * change (s :: c ++ [e]) with ([s] ++ c ++ [e]).
        repeat rewrite positions_app. simpl. rewrite <- app_assoc. reflexivity.
      * apply children_within. eapply Forall_impl; [|exact Hc].
        intros sub Hsub. eapply Forall_impl; [|exact Hsub].
        intros pe Hpe. change (s :: c ++ [e]) with ([s] ++ c ++ [e]).
        repeat rewrite positions_app. apply within_extend. exact Hpe.
  - intros l _. exists []. split; [reflexivity|constructor].
  - intros l sub l2 subs l' _ _ (c1 & E1 & H1) _ (c2 & E2 & H2).
    destruct (skip_split BlockEntryToken l) as (pre & Epre & _).
    destruct (skip_split FlowEntryToken l2) as (mid & Emid & _).
    exists (pre ++ c1 ++ mid ++ c2). split.
    + rewrite Epre at 1. rewrite E1. rewrite Emid at 1. rewrite E2.
      repeat rewrite <- app_assoc. reflexivity.
    + constructor.
      * apply spans_within in H1. eapply Forall_impl; [|exact H1].
        intros pe Hpe. repeat rewrite positions_app.
        apply within_extend. exact Hpe.
      * eapply Forall_impl; [|exact H2].
        intros sub' Hsub. eapply Forall_impl; [|exact Hsub].
        intros pe Hpe. repeat rewrite positions_app.
        rewrite (app_assoc (positions c1)), (app_assoc (positions pre)).
        rewrite <- (app_nil_r (positions c2)) at 1.
        apply within_extend. exact Hpe.
Qed.

(** The order of the spans is the order of the marks: the walk copies the
    marks the tokens carry.  On a queue of tokens that is not in document
    order (as no scan of a text gives), a token that ends before it starts
    gives an entry that ends before it starts, and an element token placed
    after the closing token gives an entry outside the root's span. *)
Lemma spans_follow_tokens :
  (primitive doc_backwards = (Return [("", span 5 3)], [])
   /\ ~ (start_offset (span 5 3) <= end_offset (span 5 3))%Z)
  /\ (sequence doc_outside = (Return [("", span 0 3); ("/0", span 7 9)], [])
      /\ ~ (end_offset (span 7 9) <= end_offset (span 0 3))%Z).
Proof.
  split; (split; [reflexivity|]); unfold end_offset, start_offset; simpl; lia.
Qed.

Lemma consumed_app (c l' : list Token) : consumed (c ++ l') l' = c.
Proof.
  unfold consumed. rewrite length_app, Nat.add_sub.
  rewrite firstn_app, Nat.sub_diag, firstn_all. simpl. apply app_nil_r.
Qed.

(** C4: on tokens as the tokenizer supplies them, in document order (the
    offsets of the marks of the tokens the call takes never decrease along
    the stream), every entry that [value], [sequence] or [primitive]
    returns starts no later than it ends, and the root entry's span
    contains the span of every other entry. *)
Theorem spans_ordered (walk : M types.TSourceMapEntries)
    (loader : Loader) es loader' :
  document_order (consumed loader loader') ->
  walk = value \/ walk = sequence \/ walk = primitive ->
  walk loader = (Return es, loader') ->
  Forall (fun pe => (start_offset (snd pe) <= end_offset (snd pe))%Z) es
  /\ exists root rest,
       es = ("", root) :: rest
       /\ Forall (fun pe =>
                    (start_offset root <= start_offset (snd pe))%Z
                    /\ (end_offset (snd pe) <= end_offset root)%Z)
                 rest.
Proof.
  intros Hord Hwalk H.
  pose proof (call_walk walk loader es loader' Hwalk H) as Hw.
  destruct (proj1 walk_spans _ _ _ Hw) as (c & -> & Hc).
  rewrite consumed_app in Hord.
  assert (Hsorted : StronglySorted Z.le (positions c)).
  { apply Sorted_StronglySorted in Hord; [exact Hord|].
    intros x y z. apply Z.le_trans. }
  split.
  - eapply Forall_impl; [|apply spans_within; exact Hc].
    intros pe Hpe. apply (within_sorted _ _ Hsorted Hpe).
  - destruct Hc as (root & rest & mid & -> & Epos & Hrest).
    exists root, rest. split; [reflexivity|].
    eapply Forall_impl; [|exact Hrest].
    intros pe Hpe. destruct (within_sorted _ _ Hsorted Hpe) as (_ & Hs & He).
    rewrite Epos in Hsorted, Hs, He. split.
    + apply (strongly_sorted_hd _ _ _ Hsorted Hs).
    + apply (strongly_sorted_last _ _ (start_offset root :: mid)).
      * exact Hsorted.
      * exact He.
Qed.

Lemma spans_ordered_witness :
  Forall (fun pe => (start_offset (snd pe) <= end_offset (snd pe))%Z)
         [("", span 0 8); ("/0", span 1 4); ("/0/0", span 2 3); ("/1", span 6 7)]
  /\ exists root rest,
       [("", span 0 8); ("/0", span 1 4); ("/0/0", span 2 3); ("/1", span 6 7)]
       = ("", root) :: rest
       /\ Forall (fun pe =>
                    (start_offset root <= start_offset (snd pe))%Z
                    /\ (end_offset (snd pe) <= end_offset root)%Z)
                 rest.
Proof.
  apply (spans_ordered value doc_nested _ [tok StreamEndToken 8 8]).
  - unfold document_order. simpl. repeat constructor; lia.
  - left. reflexivity.
  - reflexivity.
Defined.

(** ** Streams that differ in the form of their brackets *)

Lemma same_up_to_form_sym (t t' : Token) :
  same_up_to_form t t' -> same_up_to_form t' t.
Proof.
  intros (Hs & He & Hc). repeat split; try congruence.
  destruct Hc as [Hc|[Hc|Hc]]; [left; congruence|right; left|right; right];
    tauto.
Qed.

Lemma isinstance_form (classes : list TokenClass) (t t' : Token) :
  tested classes -> same_up_to_form t t' ->
  isinstance (Some t) classes = isinstance (Some t') classes.
Proof.
  intros Hcl (_ & _ & Hc). destruct t as [c sm em], t' as [c' sm' em'].
  unfold isinstance in *. simpl in *.
  destruct Hc as [->|[[H H']|[H H']]]; [reflexivity| |];
    destruct c; try discriminate H; destruct c'; try discriminate H';
    destruct Hcl as [->|[->|[->|[->| ->]]]]; reflexivity.
Qed.

Lemma isinstance_hd_form (classes : list TokenClass) (l l' : Loader) :
  tested classes -> Forall2 same_up_to_form l l' ->
  isinstance (hd_error l) classes = isinstance (hd_error l') classes.
Proof.
  intros Hcl [|t t' k k' Ht _]; [reflexivity|].
  apply isinstance_form; assumption.
Qed.

Lemma skip_form (c : TokenClass) (l l' : Loader) :
  tested [c] -> Forall2 same_up_to_form l l' ->
  Forall2 same_up_to_form (skip c l) (skip c l').
Proof.
  intros Hc H. unfold skip. rewrite (isinstance_hd_form [c] l l' Hc H).
  destruct (isinstance (hd_error l') [c]); [|exact H].
  destruct H; [constructor|assumption].
Qed.

Lemma entry_of_form (s s' e e' : Token) :
  same_up_to_form s s' -> same_up_to_form e e' -> entry_of s e = entry_of s' e'.
Proof.
  intros (Hs & _) (_ & He & _). unfold entry_of. rewrite Hs, He. reflexivity.
Qed.

Lemma walk_form :
  (forall l es rest, walk_value l es rest ->
     forall l', Forall2 same_up_to_form l l' ->
       exists rest', walk_value l' es rest'
                     /\ Forall2 same_up_to_form rest rest')
  /\ (forall l subs rest, walk_elements l subs rest ->
        forall l', Forall2 same_up_to_form l l' ->
          exists rest', walk_elements l' subs rest'
                        /\ Forall2 same_up_to_form rest rest').
Proof.
  assert (Tstart : tested sequence_starts) by (left; reflexivity).
  assert (Tend : tested sequence_ends) by (right; left; reflexivity).
  assert (Tscalar : tested [ScalarToken]) by (right; right; left; reflexivity).
  assert (Tblock : tested [BlockEntryToken])
    by (right; right; right; left; reflexivity).
  assert (Tflow : tested [FlowEntryToken])
    by (right; right; right; right; reflexivity).
  apply walk_mutind.
  - intros t rest Ht Hs l' Hl. inversion Hl as [|? t' ? rest' Htt Hrest]; subst.
    exists rest'. split; [|exact Hrest].
    rewrite (entry_of_form t t' t t' Htt Htt). constructor.
    + rewrite <- (isinstance_form _ t t' Tscalar Htt). exact Ht.
    + rewrite <- (isinstance_form _ t t' Tstart Htt). exact Hs.
  - intros s l subs e rest Hs _ IH He l' Hl.
    inversion Hl as [|? s' ? l1' Hss Hl1]; subst.
    destruct (IH l1' Hl1) as (rest1' & Hw & Hrest1).
    inversion Hrest1 as [|? e' ? rest' Hee Hrest]; subst.
    exists rest'. split; [|exact Hrest].
    rewrite (entry_of_form s s' e e' Hss Hee). econstructor.
    + rewrite <- (isinstance_form _ s s' Tstart Hss). exact Hs.
    + exact Hw.
    + rewrite <- (isinstance_form _ e e' Tend Hee). exact He.
  - intros l He l' Hl. exists l'. split; [|exact Hl]. constructor.
    rewrite <- (isinstance_hd_form _ l l' Tend Hl). exact He.
  - intros l sub l2 subs rest He _ IHv _ IHw l' Hl.
    destruct (IHv _ (skip_form BlockEntryToken l l' Tblock Hl)) as (l2' & Hv & Hl2).
    destruct (IHw _ (skip_form FlowEntryToken l2 l2' Tflow Hl2))
      as (rest' & Hw & Hrest).
    exists rest'. split; [|exact Hrest]. econstructor.
    + rewrite <- (isinstance_hd_form _ l l' Tend Hl). exact He.
    + exact Hv.
    + exact Hw.
Qed.

Lemma Forall2_same_up_to_form_sym (l l' : Loader) :
  Forall2 same_up_to_form l l' -> Forall2 same_up_to_form l' l.
Proof.
  induction 1; constructor; [apply same_up_to_form_sym|]; assumption.
Qed.

(** C1, amended: [sequence] never compares the class of the end token with
    the form of the start token.  Two loaders that differ only in the form
    (flow or block) of sequence starts and of sequence ends have the same
    outcome: the same entries, or an exception for both.  A start of one
    form closed by the end of the other form is walked like the matched
    pair. *)
Theorem sequence_form_blind (loader loader' : Loader) :
  Forall2 same_up_to_form loader loader' ->
  same_outcome (sequence loader) (sequence loader').
Proof.
  intro Hl.
  assert (Hstart : isinstance (hd_error loader) sequence_starts
                   = isinstance (hd_error loader') sequence_starts).
  { apply isinstance_hd_form; [left; reflexivity|exact Hl]. }
  pose proof (sequence_total loader) as T. pose proof (sequence_total loader') as T'.
  unfold same_outcome, finished in *.
  destruct (sequence loader) as [[es|err|] rest] eqn:E;
    destruct (sequence loader') as [[es'|err'|] rest'] eqn:E'; simpl in *;
    try contradiction; try exact I.
  - apply sequence_walk in E. destruct E as [E Hs].
    destruct (proj1 walk_form _ _ _ E _ Hl) as (rest2 & Hw & Hrest).
    rewrite Hstart in Hs. rewrite (walk_value_sequence _ _ _ Hw Hs) in E'.
    injection E' as <- <-. split; [reflexivity|exact Hrest].
  - apply sequence_walk in E. destruct E as [E Hs].
    destruct (proj1 walk_form _ _ _ E _ Hl) as (rest2 & Hw & Hrest).
    rewrite Hstart in Hs. rewrite (walk_value_sequence _ _ _ Hw Hs) in E'.
    discriminate.
  - apply sequence_walk in E'. destruct E' as [E' Hs].
    destruct (proj1 walk_form _ _ _ E' _ (Forall2_same_up_to_form_sym _ _ Hl))
      as (rest2 & Hw & Hrest).
    rewrite <- Hstart in Hs. rewrite (walk_value_sequence _ _ _ Hw Hs) in E.
    discriminate.
Qed.

Lemma sequence_form_blind_witness :
  same_outcome (sequence doc_block_flow) (sequence doc_block_block).
Proof.
  apply (sequence_form_blind doc_block_flow doc_block_block).
  unfold doc_block_flow, doc_block_block.
  repeat (apply Forall2_cons || apply Forall2_nil);
    (split; [reflexivity|split; [reflexivity|]]);
    first [left; reflexivity | right; right; split; reflexivity].
Defined.

(** ** No pointer twice *)

Lemma reprefix_pointers (k : nat) sub :
  map fst (reprefix k sub) = map (child_pointer k) (map fst sub).
Proof. unfold reprefix. rewrite !map_map. reflexivity. Qed.

Lemma child_pointer_inj_r (k : nat) (p q : string) :
  child_pointer k p = child_pointer k q -> p = q.
Proof.
  unfold child_pointer. simpl. intro H. injection H as H.
  exact (string_app_inv_head _ _ _ H).
Qed.

Lemma child_pointers_NoDup (k : nat) (ps : list string) :
  NoDup ps -> NoDup (map (child_pointer k) ps).
Proof.
  induction 1 as [|p ps Hp _ IH]; simpl; constructor; [|exact IH].
  rewrite in_map_iff. intros (q & E & Hq).
  apply child_pointer_inj_r in E. subst q. exact (Hp Hq).
Qed.

Lemma children_NoDup subs :
  Forall rooted subs -> Forall (fun sub => NoDup (map fst sub)) subs ->
  forall k, NoDup (map fst (children_from k subs)).
Proof.
  intros Hr Hn. revert Hn.
  induction Hr as [|sub subs Hsub Hsubs IH]; intros Hn k; [constructor|].
  inversion Hn as [|? ? Hnsub Hnsubs]; subst. simpl. rewrite map_app.
  apply NoDup_app.
  - rewrite reprefix_pointers. apply child_pointers_NoDup. exact Hnsub.
  - apply IH. exact Hnsubs.
  - intros p Hp Hq. rewrite reprefix_pointers in Hp.
    apply in_map_iff in Hp. destruct Hp as (p0 & <- & Hp0).
    apply in_map_iff in Hp0. destruct Hp0 as ([p0' a] & E & Hin).
    simpl in E. subst p0'.
    apply in_map_iff in Hq. destruct Hq as ([q b] & E & Hq). simpl in E. subst q.
    destruct (children_elem subs Hsubs _ _ _ Hq) as (m & q0 & Hm & E & Hb).
    apply child_pointer_inj in E.
    + lia.
    + eapply rooted_boundary; [exact Hsub|exact Hin].
    + exact Hb.
Qed.

Lemma walk_NoDup :
  (forall l es l', walk_value l es l' -> NoDup (map fst es))
  /\ (forall l subs l', walk_elements l subs l' ->
        Forall (fun sub => NoDup (map fst sub)) subs).
Proof.
  apply walk_mutind.
  - intros. simpl. constructor; [intros []|constructor].
  - intros s l subs e rest _ Hw IH _.
    pose proof (proj2 walk_rooted _ _ _ Hw) as Hr. simpl. constructor.
    + intro Hin. apply in_map_iff in Hin. destruct Hin as (pe & E & Hin).
      pose proof (children_below subs Hr 0) as Hb.
      rewrite Forall_forall in Hb. exact (below_nonempty pe (Hb pe Hin) E).
    + apply children_NoDup; assumption.
  - constructor.
  - intros. constructor; assumption.
Qed.

(** X1: in the list a successful call of [value], [sequence] or
    [primitive] returns, no pointer occurs twice. *)
Theorem pointers_unique (walk : M types.TSourceMapEntries)
    (loader : Loader) es loader' :
  walk = value \/ walk = sequence \/ walk = primitive ->
  walk loader = (Return es, loader') ->
  NoDup (map fst es).
Proof.
  intros Hwalk H. apply (proj1 walk_NoDup loader es loader').
  exact (call_walk walk loader es loader' Hwalk H).
Qed.

Lemma pointers_unique_witness :
  NoDup (map fst [("", span 0 8); ("/0", span 1 4); ("/0/0", span 2 3);
                  ("/1", span 6 7)]).
Proof.
  apply (pointers_unique value doc_nested _ [tok StreamEndToken 8 8]).
  - left. reflexivity.
  - reflexivity.
Defined.

(** ** One entry for each value token *)

Lemma children_from_length subs (k : nat) :
  List.length (children_from k subs)
  = list_sum (map (@List.length _) subs).
Proof.
  revert k. induction subs as [|sub subs IH]; intro k; [reflexivity|].
  simpl. rewrite length_app, reprefix_length, IH. reflexivity.
Qed.

Lemma separator_opens_nothing (c : TokenClass) (pre : list Token) :
  c = BlockEntryToken \/ c = FlowEntryToken ->
  pre = [] \/ (exists t, pre = [t] /\ isinstance (Some t) [c] = true) ->
  filter opens_value pre = [].
Proof.
  intros Hc [->|(t & -> & Ht)]; [reflexivity|].
  destruct t as [ct sm em]. unfold opens_value, isinstance in *. simpl in *.
  destruct Hc as [-> | ->]; destruct ct; try discriminate; reflexivity.
Qed.

Lemma walk_counts :
  (forall l es l', walk_value l es l' ->
     exists c, l = c ++ l'
               /\ List.length es = List.length (filter opens_value c))
  /\ (forall l subs l', walk_elements l subs l' ->
        exists c, l = c ++ l'
                  /\ list_sum (map (@List.length _) subs)
                     = List.length (filter opens_value c)).
Proof.
  apply walk_mutind.
  - intros [ct sm em] rest Ht _.
    exists [{| class := ct; start_mark := sm; end_mark := em |}].
    split; [reflexivity|]. unfold opens_value, isinstance in *. simpl in *.
    destruct ct; try discriminate; reflexivity.
  - intros [cs ss se] l subs [ce es ee] rest Hs _ (c & -> & Hc) He.
    exists ({| class := cs; start_mark := ss; end_mark := se |}
            :: c ++ [{| class := ce; start_mark := es; end_mark := ee |}]).
    split; [simpl; rewrite <- app_assoc; reflexivity|].
    simpl. rewrite children_from_length, Hc, filter_app.
    unfold opens_value, isinstance in *. simpl in *.
    destruct cs; try discriminate; destruct ce; try discriminate; simpl;
      rewrite length_app; simpl; lia.
  - intros l _. exists []. split; reflexivity.
  - intros l sub l2 subs l' _ _ (c1 & E1 & H1) _ (c2 & E2 & H2).
    destruct (skip_split BlockEntryToken l) as (pre & Epre & Hpre).
    destruct (skip_split FlowEntryToken l2) as (mid & Emid & Hmid).
    exists (pre ++ c1 ++ mid ++ c2). split.
    + rewrite Epre at 1. rewrite E1. rewrite Emid at 1. rewrite E2.
      repeat rewrite <- app_assoc. reflexivity.
    + rewrite !filter_app, !length_app.
      rewrite (separator_opens_nothing BlockEntryToken pre),
        (separator_opens_nothing FlowEntryToken mid); auto.
      simpl. lia.
Qed.

(** X2: a successful call of [value], [sequence] or [primitive] takes a
    prefix of the loader's tokens off, and returns as many entries as there
    are scalar and sequence-start tokens in that prefix: every value token
    taken gets one entry, and no other token gets any. *)
Theorem entries_count (walk : M types.TSourceMapEntries)
    (loader : Loader) es loader' :
  walk = value \/ walk = sequence \/ walk = primitive ->
  walk loader = (Return es, loader') ->
  loader = consumed loader loader' ++ loader'
  /\ List.length es
     = List.length (filter opens_value (consumed loader loader')).
Proof.
  intros Hwalk H. pose proof (call_walk walk loader es loader' Hwalk H) as Hw.
  destruct (proj1 walk_counts _ _ _ Hw) as (c & -> & Hc).
  rewrite consumed_app. split; [reflexivity|exact Hc].
Qed.

Lemma entries_count_witness :
  doc_nested = consumed doc_nested [tok StreamEndToken 8 8]
               ++ [tok StreamEndToken 8 8]
  /\ List.length [("", span 0 8); ("/0", span 1 4); ("/0/0", span 2 3);
                  ("/1", span 6 7)]
     = List.length (filter opens_value
                      (consumed doc_nested [tok StreamEndToken 8 8])).
Proof.
  apply (entries_count value doc_nested _ [tok StreamEndToken 8 8]).
  - left. reflexivity.
  - reflexivity.
Defined.

(** ** Where a walk stops *)

Lemma nesting_firstn_separator (c : TokenClass) (pre : list Token) (n : nat) :
  c = BlockEntryToken \/ c = FlowEntryToken ->
  pre = [] \/ (exists t, pre = [t] /\ isinstance (Some t) [c] = true) ->
  nesting (firstn n pre) = 0%Z.
Proof.
  intros Hc Hpre. destruct n as [|n]; [reflexivity|].
  pose proof (nesting_separator c pre Hc Hpre) as H.
  destruct Hpre as [->|(t & -> & _)]; [reflexivity|].
  simpl firstn. rewrite firstn_nil. exact H.
Qed.

Lemma walk_nested :
  (forall l es l', walk_value l es l' ->
     exists c, l = c ++ l' /\ nesting c = 0%Z
               /\ forall n, 0 < n < List.length c ->
                            (0 < nesting (firstn n c))%Z)
  /\ (forall l subs l', walk_elements l subs l' ->
        exists c, l = c ++ l' /\ nesting c = 0%Z
                  /\ forall n, (0 <= nesting (firstn n c))%Z).
Proof.
  apply walk_mutind.
  - intros [ct sm em] rest Ht Hs.
    exists [{| class := ct; start_mark := sm; end_mark := em |}].
    repeat split.
    + unfold isinstance in *. simpl in *. unfold bracket, isinstance. simpl.
      destruct ct; try discriminate; reflexivity.
    + simpl. lia.
  - intros s l subs e rest Hs _ (c & -> & Hc & Hpos) He.
    exists (s :: c ++ [e]). repeat split.
    + simpl. rewrite <- app_assoc. reflexivity.
    + destruct s as [cs ss se], e as [ce es ee].
      simpl. rewrite nesting_app, Hc. unfold isinstance in *. simpl in *.
      unfold bracket, isinstance. simpl.
      destruct cs; try discriminate; destruct ce; try discriminate; reflexivity.
    + intros n Hn. simpl List.length in Hn. rewrite length_app in Hn.
      simpl in Hn. destruct n as [|n]; [lia|]. simpl firstn.
      rewrite firstn_app. replace (n - List.length c) with 0 by lia.
      simpl firstn. rewrite app_nil_r. simpl nesting.
      unfold bracket at 1. rewrite Hs. specialize (Hpos n). lia.
  - intros l _. exists []. repeat split. intro n. rewrite firstn_nil.
    simpl. lia.
  - intros l sub l2 subs l' _ _ (c1 & E1 & H1 & P1) _ (c2 & E2 & H2 & P2).
    destruct (skip_split BlockEntryToken l) as (pre & Epre & Hpre).
    destruct (skip_split FlowEntryToken l2) as (mid & Emid & Hmid).
    exists (pre ++ c1 ++ mid ++ c2). repeat split.
    + rewrite Epre at 1. rewrite E1. rewrite Emid at 1. rewrite E2.
      repeat rewrite <- app_assoc. reflexivity.
    + repeat rewrite nesting_app. rewrite H1, H2.
      rewrite (nesting_separator BlockEntryToken pre),
        (nesting_separator FlowEntryToken mid); auto.
    + intro n. rewrite !firstn_app, !nesting_app.
      rewrite (nesting_firstn_separator BlockEntryToken pre),
        (nesting_firstn_separator FlowEntryToken mid); auto.
      pose proof (P2 (n - List.length pre - List.length c1 - List.length mid)).
      assert (0 <= nesting (firstn (n - List.length pre) c1))%Z; [|lia].
      destruct (Nat.eq_dec (n - List.length pre) 0) as [->|Hn0];
        [simpl; lia|].
      destruct (Nat.lt_ge_cases (n - List.length pre) (List.length c1)) as [Hlt|Hge].
      * specialize (P1 (n - List.length pre)). lia.
      * rewrite firstn_all2 by exact Hge. lia.
Qed.

(** X3: a successful call of [value], [sequence] or [primitive] returns
    when the sequences it has opened are closed again, and not before: over
    the tokens it takes, starts and ends (of either form) balance, and after
    every proper non-empty prefix of them a sequence is still open.  The
    last token taken by [sequence] is the end that matches its start. *)
Theorem returns_at_matching_end (walk : M types.TSourceMapEntries)
    (loader : Loader) es loader' :
  walk = value \/ walk = sequence \/ walk = primitive ->
  walk loader = (Return es, loader') ->
  nesting (consumed loader loader') = 0%Z
  /\ forall n, 0 < n < List.length (consumed loader loader') ->
               (0 < nesting (firstn n loader))%Z.
Proof.
  intros Hwalk H. pose proof (call_walk walk loader es loader' Hwalk H) as Hw.
  destruct (proj1 walk_nested _ _ _ Hw) as (c & -> & Hc & Hpos).
  rewrite consumed_app. split; [exact Hc|].
  intros n Hn. rewrite firstn_app. replace (n - List.length c) with 0 by lia.
  simpl firstn. rewrite app_nil_r. apply Hpos. exact Hn.
Qed.

Lemma returns_at_matching_end_witness :
  nesting (consumed doc_nested [tok StreamEndToken 8 8]) = 0%Z
  /\ forall n,
       0 < n < List.length (consumed doc_nested [tok StreamEndToken 8 8]) ->
       (0 < nesting (firstn n doc_nested))%Z.
Proof.
  apply (returns_at_matching_end value doc_nested
           [("", span 0 8); ("/0", span 1 4); ("/0/0", span 2 3);
            ("/1", span 6 7)]).
  - left. reflexivity.
  - reflexivity.
Defined.

(** ** A walk looks at no token beyond those it takes *)

Lemma skip_cons (c : TokenClass) (t : Token) (r : Loader) :
  skip c (t :: r) = if isinstance (Some t) [c] then r else t :: r.
Proof. reflexivity. Qed.

Lemma hd_error_app (x y : list Token) :
  x <> [] -> hd_error (x ++ y) = hd_error x.
Proof. destruct x; [congruence|reflexivity]. Qed.

Lemma skip_frame (c : TokenClass) (l x y : Loader) :
  skip c l = x ++ y -> x <> [] ->
  exists pre, l = pre ++ x ++ y
              /\ forall y', skip c (pre ++ x ++ y') = x ++ y'.
Proof.
  intros E Hx. destruct l as [|t r].
  - destruct x; [congruence|discriminate].
  - rewrite skip_cons in E. destruct (isinstance (Some t) [c]) eqn:Ht.
    + exists [t]. split; [simpl; congruence|].
      intro y'. cbn [Datatypes.app]. rewrite skip_cons, Ht. reflexivity.
    + exists []. split; [simpl; congruence|].
      intro y'. destruct x as [|t' x]; [congruence|].
      simpl in E. injection E as <- _. cbn [Datatypes.app]. rewrite skip_cons, Ht.
      reflexivity.
Qed.

Lemma walk_frame :
  (forall l es l', walk_value l es l' ->
     exists c, l = c ++ l' /\ c <> []
               /\ forall other, walk_value (c ++ other) es other)
  /\ (forall l subs l', walk_elements l subs l' ->
        exists c e r, l' = e :: r /\ l = c ++ e :: r
                      /\ forall other,
                           walk_elements (c ++ e :: other) subs (e :: other)).
Proof.
  apply walk_mutind.
  - intros t rest Ht Hs. exists [t]. repeat split; [discriminate|].
    intro other. constructor; assumption.
  - intros s l subs e rest Hs _ (c & e' & r & E & -> & Hc) He.
    injection E as <- <-. exists (s :: c ++ [e]). repeat split.
    + simpl. rewrite <- app_assoc. reflexivity.
    + discriminate.
    + intro other. simpl. rewrite <- app_assoc. simpl.
      econstructor; [exact Hs|apply Hc|exact He].
  - intros l He. destruct l as [|e r]; [discriminate|].
    exists [], e, r. repeat split. intro other. constructor. exact He.
  - intros l sub l2 subs l' He _ (c1 & E1 & N1 & F1) _
           (c2 & e & r & -> & E2 & F2).
    destruct (skip_frame BlockEntryToken l c1 l2 E1 N1) as (pre & Epre & Spre).
    assert (N2 : c2 ++ [e] <> []) by (destruct c2; discriminate).
    assert (E2' : skip FlowEntryToken l2 = (c2 ++ [e]) ++ r)
      by (rewrite <- app_assoc; exact E2).
    destruct (skip_frame FlowEntryToken l2 (c2 ++ [e]) r E2' N2)
      as (mid & Emid & Smid).
    exists (pre ++ c1 ++ mid ++ c2), e, r. repeat split.
    + rewrite Epre, Emid. repeat rewrite <- app_assoc. reflexivity.
    + intro other.
      assert (Eo : (pre ++ c1 ++ mid ++ c2) ++ e :: other
                   = pre ++ c1 ++ (mid ++ (c2 ++ [e]) ++ other))
        by (repeat rewrite <- app_assoc; reflexivity).
      rewrite Eo. econstructor.
      * rewrite app_assoc, hd_error_app by (destruct pre, c1; simpl; congruence).
        rewrite Epre, app_assoc, hd_error_app in He
          by (destruct pre, c1; simpl; congruence).
        exact He.
      * rewrite Spre. apply F1.
      * rewrite Smid, <- app_assoc. apply F2.
Qed.

Lemma scalar_not_start (t : Token) :
  isinstance (Some t) [ScalarToken] = true ->
  isinstance (Some t) sequence_starts = false.
Proof.
  destruct t as [c sm em]. unfold isinstance. simpl.
  destruct c; try discriminate; reflexivity.
Qed.

(** X4: the result of a successful call depends on the tokens it takes and
    on nothing after them: on the same tokens followed by any other rest of
    the stream, [value], [sequence] and [primitive] return the same entries
    and leave that rest. *)
Theorem walk_local (walk : M types.TSourceMapEntries)
    (loader : Loader) es loader' (other : Loader) :
  walk = value \/ walk = sequence \/ walk = primitive ->
  walk loader = (Return es, loader') ->
  walk (consumed loader loader' ++ other) = (Return es, other).
Proof.
  intros Hwalk H. pose proof (call_walk walk loader es loader' Hwalk H) as Hw.
  destruct (proj1 walk_frame _ _ _ Hw) as (c & -> & Hc & Hframe).
  rewrite consumed_app. specialize (Hframe other).
  destruct Hwalk as [->|[->| ->]].
  - apply (proj1 walk_complete). exact Hframe.
  - apply walk_value_sequence; [exact Hframe|].
    apply sequence_walk in H. destruct H as [_ H].
    rewrite hd_error_app in H |- * by exact Hc. exact H.
  - apply (proj1 walk_complete) in Hframe. rewrite value_eq in Hframe.
    rewrite primitive_eq in H. rewrite hd_error_app in Hframe by exact Hc.
    destruct c as [|t c]; [congruence|]. cbn [Datatypes.app] in H.
    destruct (isinstance (Some t) [ScalarToken]) eqn:Ht; [|discriminate].
    simpl hd_error in Hframe. rewrite (scalar_not_start t Ht) in Hframe.
    exact Hframe.
Qed.

Lemma walk_local_witness :
  value (consumed doc_nested [tok StreamEndToken 8 8]
         ++ [tok FlowEntryToken 8 9; tok ScalarToken 10 11])
  = (Return [("", span 0 8); ("/0", span 1 4); ("/0/0", span 2 3);
             ("/1", span 6 7)],
     [tok FlowEntryToken 8 9; tok ScalarToken 10 11]).
Proof.
  apply (walk_local value doc_nested _ [tok StreamEndToken 8 8]).
  - left. reflexivity.
  - reflexivity.
Defined.

(** ** The exceptions of a walk *)

Lemma walk_elements_stops l subs l' :
  walk_elements l subs l' -> isinstance (hd_error l') sequence_ends = true.
Proof. induction 1; assumption. Qed.

Lemma opens_value_cases (t : Token) :
  opens_value t
  = isinstance (Some t) [ScalarToken] || isinstance (Some t) sequence_starts.
Proof.
  destruct t as [c sm em]. unfold opens_value, isinstance. simpl.
  destruct c; reflexivity.
Qed.

Lemma fuel_stuck (f : nat) :
  (forall l e l', value_fuel f l = (Raise e, l') ->
     exists tok, e = error_scalar tok /\ stuck_value l tok l')
  /\ (forall l e l', sequence_fuel f l = (Raise e, l') ->
        (isinstance (hd_error l) sequence_starts = false
         /\ e = error_start (hd_error l) /\ l' = tl l)
        \/ (isinstance (hd_error l) sequence_starts = true
            /\ exists tok, e = error_scalar tok /\ stuck_value l tok l'))
  /\ (forall i es l e l', while_fuel f i es l = (Raise e, l') ->
        exists tok, e = error_scalar tok /\ stuck_elements l tok l').
Proof.
  induction f as [|f (IHv & IHs & IHw)].
  - repeat split; intros; discriminate.
  - split; [|split].
    + intros l e l' H. rewrite value_fuel_S in H.
      destruct (isinstance (hd_error l) sequence_starts) eqn:Es.
      * destruct (IHs _ _ _ H) as [(Hs & _)|(_ & Hstuck)];
          [congruence|exact Hstuck].
      * rewrite primitive_eq in H. destruct l as [|t rest].
        -- injection H as <- <-. exists None. split; [reflexivity|constructor].
        -- destruct (isinstance (Some t) [ScalarToken]) eqn:Et; [discriminate|].
           injection H as <- <-. exists (Some t). split; [reflexivity|].
           constructor. rewrite opens_value_cases, Et. exact Es.
    + intros l e l' H. rewrite sequence_fuel_S in H.
      destruct l as [|s l1].
      * injection H as <- <-. left. repeat split.
      * destruct (isinstance (Some s) sequence_starts) eqn:Es.
        -- right. split; [exact Es|].
           destruct (while_fuel f 0 [] l1) as [[[k out]|err|] l2] eqn:E;
             try discriminate.
           ++ exfalso. apply (proj2 (proj2 (fuel_sound f))) in E.
              destruct E as (subs & Hw & _). apply walk_elements_stops in Hw.
              destruct l2 as [|e0 l3]; [discriminate|]. simpl hd_error in Hw.
              rewrite Hw in H. discriminate.
           ++ injection H as <- <-. apply IHw in E.
              destruct E as (tok & -> & Hstuck). exists tok.
              split; [reflexivity|]. constructor; assumption.
        -- injection H as <- <-. left. repeat split. exact Es.
    + intros i es l e l' H. rewrite while_fuel_S in H.
      destruct (isinstance (hd_error l) sequence_ends) eqn:He; [discriminate|].
      destruct (value_fuel f (skip BlockEntryToken l)) as [[sub|err|] l2] eqn:E;
        try discriminate.
      * apply (proj1 (fuel_sound f)) in E. apply IHw in H.
        destruct H as (tok & -> & Hstuck). exists tok.
        split; [reflexivity|]. eapply stuck_next; eassumption.
      * injection H as <- <-. apply IHv in E.
        destruct E as (tok & -> & Hstuck). exists tok.
        split; [reflexivity|]. apply stuck_element; assumption.
Qed.

Lemma stuck_complete :
  (forall l tok l', stuck_value l tok l' ->
     value l = (Raise (error_scalar tok), l'))
  /\ (forall l tok l', stuck_elements l tok l' ->
        forall i es, while_loop i es l = (Raise (error_scalar tok), l')).
Proof.
  apply stuck_mutind.
  - rewrite value_eq. reflexivity.
  - intros t rest Ht. rewrite opens_value_cases in Ht.
    apply orb_false_elim in Ht. destruct Ht as [Hscalar Hstart].
    rewrite value_eq. simpl hd_error. rewrite Hstart, primitive_eq, Hscalar.
    reflexivity.
  - intros s l tok l' Hs _ IH. rewrite value_eq. simpl hd_error.
    rewrite Hs, sequence_eq, Hs, IH. reflexivity.
  - intros l tok l' He _ IH i es. rewrite while_loop_eq, He, IH. reflexivity.
  - intros l sub l2 tok l' He Hv _ IH i es.
    rewrite while_loop_eq, He, (proj1 walk_complete _ _ _ Hv), IH. reflexivity.
Qed.

(** The cases of [skip]: a separator taken off, or a loader left alone
    whose first token is no such separator. *)
Lemma skip_sharp (c : TokenClass) (l : Loader) :
  (exists b, l = b :: skip c l /\ isinstance (Some b) [c] = true)
  \/ (skip c l = l /\ isinstance (hd_error l) [c] = false).
Proof.
  unfold skip. destruct (isinstance (hd_error l) [c]) eqn:E.
  - left. destruct l as [|b l]; [discriminate|]. exists b. auto.
  - right. auto.
Qed.

Lemma skip_hd (c : TokenClass) (l : Loader) :
  isinstance (hd_error l) [c] = false -> skip c l = l.
Proof. unfold skip. intros ->. reflexivity. Qed.

Lemma hd_error_mid (x y y' : list Token) (t : Token) :
  hd_error (x ++ t :: y) = hd_error (x ++ t :: y').
Proof. destruct x; reflexivity. Qed.

Lemma walk_value_head l es l' :
  walk_value l es l' -> exists t r, l = t :: r /\ opens_value t = true.
Proof.
  intros [t rest Ht Hs|s k subs e rest Hs _ _].
  - exists t, rest. split; [reflexivity|].
    rewrite opens_value_cases, Ht. reflexivity.
  - exists s, k. split; [reflexivity|].
    rewrite opens_value_cases, Hs. apply orb_true_r.
Qed.

Lemma value_token_plain (t : Token) :
  opens_value t = true ->
  isinstance (Some t) sequence_ends = false
  /\ isinstance (Some t) [BlockEntryToken] = false
  /\ isinstance (Some t) [FlowEntryToken] = false.
Proof.
  destruct t as [c sm em]. unfold opens_value, isinstance. simpl.
  destruct c; try discriminate; repeat split.
Qed.

Lemma block_entry_not_end (b : Token) :
  isinstance (Some b) [BlockEntryToken] = true ->
  isinstance (Some b) sequence_ends = false.
Proof.
  destruct b as [c sm em]. unfold isinstance. simpl.
  destruct c; try discriminate; reflexivity.
Qed.

Lemma end_not_flow_entry (e : Token) :
  isinstance (Some e) sequence_ends = true ->
  isinstance (Some e) [FlowEntryToken] = false.
Proof.
  destruct e as [c sm em]. unfold isinstance. simpl.
  destruct c; try discriminate; reflexivity.
Qed.

(** A loop that walks the element [x] and is then at an end token. *)
Lemma walk_last_element (pre x : list Token) sub (e : Token) (other : Loader) :
  pre = [] \/ (exists b, pre = [b] /\ isinstance (Some b) [BlockEntryToken] = true) ->
  walk_value (x ++ e :: other) sub (e :: other) ->
  isinstance (Some e) sequence_ends = true ->
  walk_elements (pre ++ x ++ e :: other) [sub] (e :: other).
Proof.
  intros Hpre Hv He.
  destruct (walk_value_head _ _ _ Hv) as (t & r & Et & Ht).
  destruct (value_token_plain t Ht) as (Hte & Htb & _).
  apply walk_element with (l2 := e :: other).
  - destruct Hpre as [->|(b & -> & Hb)]; simpl.
    + rewrite Et. exact Hte.
    + apply block_entry_not_end. exact Hb.
  - destruct Hpre as [->|(b & -> & Hb)]; simpl.
    + rewrite skip_hd; [exact Hv|]. rewrite Et. exact Htb.
    + rewrite skip_cons, Hb. exact Hv.
  - rewrite skip_hd; [|apply end_not_flow_entry; exact He].
    constructor. exact He.
Qed.

Lemma stuck_frame :
  (forall l tok l', stuck_value l tok l' ->
     exists pre,
       l = pre ++ rest_at tok l'
       /\ (tok = None -> l' = [])
       /\ (exists ext es, forall other,
              walk_value (pre ++ any_scalar :: ext ++ other) es other)
       /\ (forall t, tok = Some t ->
             opens_value t = false
             /\ forall other, stuck_value (pre ++ t :: other) (Some t) other))
  /\ (forall l tok l', stuck_elements l tok l' ->
        exists pre,
          l = pre ++ rest_at tok l'
          /\ (tok = None -> l' = [])
          /\ (exists ext subs, forall e other,
                 isinstance (Some e) sequence_ends = true ->
                 walk_elements (pre ++ any_scalar :: ext ++ e :: other) subs
                               (e :: other))
          /\ (forall t, tok = Some t ->
                opens_value t = false
                /\ forall other,
                     stuck_elements (pre ++ t :: other) (Some t) other)).
Proof.
  apply stuck_mutind.
  - exists []. repeat split.
    + exists [], [("", entry_of any_scalar any_scalar)]. intro other.
      constructor; reflexivity.
    + discriminate.
    + discriminate.
  - intros t rest Ht. exists []. repeat split.
    + discriminate.
    + exists [], [("", entry_of any_scalar any_scalar)]. intro other.
      constructor; reflexivity.
    + injection H as <-. exact Ht.
    + injection H as <-. intro other. constructor. exact Ht.
  - intros s l tok l' Hs _ (pre & -> & Hnone & (ext & subs & Hext) & Hframe).
    exists (s :: pre). repeat split.
    + exact Hnone.
    + exists (ext ++ [any_end]),
        (("", entry_of s any_end) :: children_from 0 subs).
      intro other. simpl. rewrite <- app_assoc. simpl.
      econstructor; [exact Hs|apply Hext; reflexivity|reflexivity].
    + exact (proj1 (Hframe t H)).
    + intro other. simpl. constructor; [exact Hs|].
      apply (proj2 (Hframe t H)).
  - intros l tok l' He _ (pre1 & E1 & Hnone & (ext & es & Hext) & Hframe).
    destruct (skip_sharp BlockEntryToken l) as [(b & Eb & Hb)|(Eb & Hb)].
    + exists (b :: pre1). repeat split.
      * rewrite Eb at 1. rewrite E1. reflexivity.
      * exact Hnone.
      * exists ext, [es]. intros e other Hend.
        replace ((b :: pre1) ++ any_scalar :: ext ++ e :: other)
          with ([b] ++ (pre1 ++ any_scalar :: ext) ++ e :: other)
          by (simpl; rewrite <- app_assoc; reflexivity).
        apply (walk_last_element [b] (pre1 ++ any_scalar :: ext));
          [right; eauto| |exact Hend].
        rewrite <- app_assoc. simpl. apply Hext.
      * exact (proj1 (Hframe t H)).
      * intro other. apply stuck_element.
        -- simpl. rewrite Eb in He. exact He.
        -- simpl Datatypes.app. rewrite skip_cons, Hb.
           apply (proj2 (Hframe t H)).
    + exists pre1. repeat split.
      * rewrite <- Eb. exact E1.
      * exact Hnone.
      * exists ext, [es]. intros e other Hend.
        replace (pre1 ++ any_scalar :: ext ++ e :: other)
          with ([] ++ (pre1 ++ any_scalar :: ext) ++ e :: other)
          by (simpl; rewrite <- app_assoc; reflexivity).
        apply (walk_last_element [] (pre1 ++ any_scalar :: ext));
          [left; reflexivity| |exact Hend].
        rewrite <- app_assoc. simpl. apply Hext.
      * exact (proj1 (Hframe t H)).
      * intro other. subst tok. rewrite Eb in E1. simpl in E1.
        apply stuck_element.
        -- rewrite (hd_error_mid pre1 other l' t), <- E1. exact He.
        -- rewrite skip_hd.
           ++ apply (proj2 (Hframe t eq_refl)).
           ++ rewrite (hd_error_mid pre1 other l' t), <- E1. exact Hb.
  - intros l sub l2 tok l' He Hv _ (pre2 & E2 & Hnone & (ext & subs & Hext) & Hframe).
    destruct (proj1 walk_frame _ _ _ Hv) as (c1 & E1 & N1 & F1).
    assert (Hskip : exists preB,
               l = preB ++ c1 ++ l2
               /\ forall y, skip BlockEntryToken (preB ++ c1 ++ y) = c1 ++ y).
    { destruct (skip_frame BlockEntryToken l c1 l2 E1 N1) as (preB & Ea & Eb).
      exists preB. split; assumption. }
    destruct Hskip as (preB & EB & SB).
    assert (Hhead : forall y, hd_error (preB ++ c1 ++ y) = hd_error l).
    { intro y. rewrite EB, !app_assoc.
      assert (N : preB ++ c1 <> []) by (destruct preB, c1; simpl; congruence).
      rewrite (hd_error_app (preB ++ c1) y N), (hd_error_app (preB ++ c1) l2 N).
      reflexivity. }
    destruct (skip_sharp FlowEntryToken l2) as [(f & Ef & Hf)|(Ef & Hf)].
    + exists (preB ++ c1 ++ f :: pre2). repeat split.
      * rewrite EB. rewrite Ef at 1. rewrite E2.
        repeat rewrite <- app_assoc. reflexivity.
      * exact Hnone.
      * exists ext, (sub :: subs). intros e other Hend.
        repeat rewrite <- app_assoc. simpl.
        apply walk_element
          with (l2 := f :: pre2 ++ any_scalar :: ext ++ e :: other).
        -- rewrite Hhead. exact He.
        -- rewrite SB. apply F1.
        -- rewrite skip_cons, Hf. apply Hext. exact Hend.
      * exact (proj1 (Hframe t H)).
      * intro other. repeat rewrite <- app_assoc. simpl.
        apply stuck_next with (sub := sub) (l2 := f :: pre2 ++ t :: other).
        -- rewrite Hhead. exact He.
        -- rewrite SB. apply F1.
        -- rewrite skip_cons, Hf. apply (proj2 (Hframe t H)).
    + rewrite Ef in E2. exists (preB ++ c1 ++ pre2). repeat split.
      * rewrite EB, E2. repeat rewrite <- app_assoc. reflexivity.
      * exact Hnone.
      * exists ext, (sub :: subs). intros e other Hend.
        repeat rewrite <- app_assoc.
        apply walk_element
          with (l2 := pre2 ++ any_scalar :: ext ++ e :: other).
        -- rewrite Hhead. exact He.
        -- rewrite SB. apply F1.
        -- rewrite skip_hd; [apply Hext; exact Hend|].
           destruct pre2 as [|p pre2]; [reflexivity|].
           rewrite E2 in Hf. exact Hf.
      * exact (proj1 (Hframe t H)).
      * intro other. subst tok. simpl in E2. repeat rewrite <- app_assoc.
        apply stuck_next with (sub := sub) (l2 := pre2 ++ t :: other).
        -- rewrite Hhead. exact He.
        -- rewrite SB. apply F1.
        -- rewrite skip_hd; [apply (proj2 (Hframe t eq_refl))|].
           rewrite (hd_error_mid pre2 other l' t), <- E2. exact Hf.
Qed.

(** X5: [value] raises nothing but "expected scalar but received", and
    raises it at the first token that cannot go on a stream [value] walks.
    The tokens taken before it begin a stream that [value] walks to the
    end; the exception carries the token [t] taken last, which is neither
    a scalar nor a sequence start, the loader is left just past [t], and
    whatever follows [t] the call raises the same.  When the stream ends
    where a value is due, the exception carries [None] and the loader is
    empty. *)
Theorem value_raises (loader : Loader) e loader' :
  value loader = (Raise e, loader') ->
  exists pre,
    (exists ext es, value (pre ++ ext) = (Return es, []))
    /\ ((e = errors.Build_InvalidYamlError "expected scalar but received" None
         /\ loader = pre /\ loader' = [])
        \/ (exists t,
               e = errors.Build_InvalidYamlError "expected scalar but received"
                     (Some t)
               /\ loader = pre ++ t :: loader'
               /\ opens_value t = false
               /\ forall other, value (pre ++ t :: other) = (Raise e, other))).
Proof.
  intro H. apply (proj1 (fuel_stuck (enough loader))) in H.
  destruct H as (tok & -> & Hstuck).
  destruct (proj1 stuck_frame _ _ _ Hstuck)
    as (pre & E & Hnone & (ext & es & Hext) & Hframe).
  exists pre. split.
  - exists (any_scalar :: ext ++ []), es.
    apply (proj1 walk_complete). apply Hext.
  - destruct tok as [t|].
    + right. exists t. destruct (Hframe t eq_refl) as [Ht Hother].
      repeat split; [exact E|exact Ht|].
      intro other. apply (proj1 stuck_complete). apply Hother.
    + left. rewrite (Hnone eq_refl) in E |- *. simpl in E.
      rewrite app_nil_r in E. auto.
Qed.

Lemma value_raises_witness :
  exists pre,
    (exists ext es, value (pre ++ ext) = (Return es, []))
    /\ ((errors.Build_InvalidYamlError "expected scalar but received"
           (Some (tok StreamEndToken 5 5))
         = errors.Build_InvalidYamlError "expected scalar but received" None
         /\ doc_unclosed = pre /\ @nil Token = [])
        \/ (exists t,
               errors.Build_InvalidYamlError "expected scalar but received"
                 (Some (tok StreamEndToken 5 5))
               = errors.Build_InvalidYamlError "expected scalar but received"
                   (Some t)
               /\ doc_unclosed = pre ++ t :: []
               /\ opens_value t = false
               /\ forall other,
                    value (pre ++ t :: other)
                    = (Raise (errors.Build_InvalidYamlError
                                "expected scalar but received"
                                (Some (tok StreamEndToken 5 5))), other))).
Proof.
  apply (value_raises doc_unclosed). reflexivity.
Defined.

(** X6: [sequence] raises "expected sequence or block sequence start"
    exactly when the first token is not a sequence start, or there is
    none: it then raises with that token (or [None]), which it has taken
    off the loader.  When the first token is a sequence start, [sequence]
    does what [value] does, so that its exceptions are those of [value].
    "expected sequence or block end" is never raised: the loop is left
    only at a token that passes the test after it. *)
Theorem sequence_raises (loader : Loader) :
  sequence loader
  = (if isinstance (hd_error loader)
          [FlowSequenceStartToken; BlockSequenceStartToken]
     then value loader
     else (Raise (errors.Build_InvalidYamlError
                    "expected sequence or block sequence start but received"
                    (hd_error loader)),
           tl loader))
  /\ forall token loader',
       sequence loader
       <> (Raise (errors.Build_InvalidYamlError
                    "expected sequence or block end but received" token),
           loader').
Proof.
  split.
  - rewrite value_eq. fold sequence_starts.
    destruct (isinstance (hd_error loader) sequence_starts) eqn:Es;
      [reflexivity|].
    rewrite sequence_eq. destruct loader as [|s l1]; [reflexivity|].
    simpl hd_error in Es. rewrite Es. reflexivity.
  - intros token loader' H.
    apply (proj1 (proj2 (fuel_stuck (enough loader)))) in H.
    destruct H as [(_ & E & _)|(_ & tok & E & _)]; discriminate E.
Qed.

(** ** Spans are nested or apart *)

Lemma strongly_sorted_app_le (x y : list Z) (a b : Z) :
  StronglySorted Z.le (x ++ y) -> In a x -> In b y -> (a <= b)%Z.
Proof.
  induction x as [|h x IH]; simpl; intros H Ha Hb; [contradiction|].
  apply StronglySorted_inv in H. destruct H as [H Hh].
  destruct Ha as [->|Ha]; [|auto].
  rewrite Forall_forall in Hh. apply Hh. apply in_or_app. right. exact Hb.
Qed.

Lemma reprefix_nested_or_apart (k : nat) sub :
  nested_or_apart sub -> nested_or_apart (reprefix k sub).
Proof.
  intros H m n p q a b Hmn Hm Hn.
  apply nth_error_reprefix in Hm, Hn.
  destruct Hm as (p0 & -> & Hm), Hn as (q0 & -> & Hn).
  destruct (H _ _ _ _ _ _ Hmn Hm Hn) as [((r & ->) & Hs & He)|Hd];
    [left|right; exact Hd].
  repeat split; [|exact Hs|exact He].
  exists r. symmetry. apply child_pointer_app.
Qed.

Lemma walk_nested_or_apart :
  (forall l es l', walk_value l es l' ->
     forall c, l = c ++ l' -> StronglySorted Z.le (positions c) ->
               nested_or_apart es)
  /\ (forall l subs l', walk_elements l subs l' ->
        forall c, l = c ++ l' -> StronglySorted Z.le (positions c) ->
                  forall k, nested_or_apart (children_from k subs)).
Proof.
  apply walk_mutind.
  - intros t rest _ _ c _ _ m n p q a b Hmn Hm Hn.
    destruct n as [|[|n]]; [lia|discriminate|discriminate].
  - intros s l subs e rest _ Hw IH _ c Ec Hsorted m n p q a b Hmn Hm Hn.
    destruct (proj2 walk_spans _ _ _ Hw) as (c0 & E0 & Hin).
    assert (Hc : c = [s] ++ c0 ++ [e]).
    { apply (app_inv_tail rest). rewrite <- Ec, E0.
      repeat rewrite <- app_assoc. reflexivity. }
    subst c. rewrite !positions_app in Hsorted.
    assert (Hsorted0 : StronglySorted Z.le (positions c0)).
    { apply strongly_sorted_app_r in Hsorted.
      apply strongly_sorted_app_l in Hsorted. exact Hsorted. }
    destruct n as [|n]; [lia|]. simpl in Hn.
    destruct m as [|m].
    + left. simpl in Hm. injection Hm as <- <-.
      pose proof (children_below subs (proj2 walk_rooted _ _ _ Hw) 0) as Hb.
      pose proof (children_within (positions c0) subs Hin 0) as Hwithin.
      apply nth_error_In in Hn. rewrite Forall_forall in Hb, Hwithin.
      destruct (Hb _ Hn) as (i & path & Hq). simpl in Hq.
      destruct (within_sorted _ _ Hsorted0 (Hwithin _ Hn)) as (_ & Hs & He).
      simpl in Hs, He. repeat split.
      * exists (decimal i ++ pointer_of_path path)%string. exact Hq.
      * apply (strongly_sorted_app_le _ _ _ _ Hsorted); [left; reflexivity|].
        apply in_or_app. left. exact Hs.
      * rewrite app_assoc in Hsorted.
        apply (strongly_sorted_app_le _ _ _ _ Hsorted);
          [|right; left; reflexivity].
        apply in_or_app. right. exact He.
    + simpl in Hm. apply (IH c0 E0 Hsorted0 0 m n); [lia|exact Hm|exact Hn].
  - intros l _ c _ _ k m n p q a b _ Hm _. destruct m; discriminate.
  - intros l sub l2 subs l' _ Hv IHv Hw IHw c Ec Hsorted k m n p q a b Hmn Hm Hn.
    destruct (proj1 walk_spans _ _ _ Hv) as (c1 & E1 & H1).
    destruct (proj2 walk_spans _ _ _ Hw) as (c2 & E2 & H2).
    destruct (skip_split BlockEntryToken l) as (pre & Epre & _).
    destruct (skip_split FlowEntryToken l2) as (mid & Emid & _).
    assert (Hc : c = pre ++ c1 ++ mid ++ c2).
    { apply (app_inv_tail l'). rewrite <- Ec. rewrite Epre at 1. rewrite E1.
      rewrite Emid at 1. rewrite E2. repeat rewrite <- app_assoc. reflexivity. }
    subst c. rewrite !positions_app in Hsorted.
    assert (Hsorted1 : StronglySorted Z.le (positions c1 ++ positions mid ++ positions c2))
      by (apply strongly_sorted_app_r in Hsorted; exact Hsorted).
    assert (Hs1 : StronglySorted Z.le (positions c1))
      by (apply strongly_sorted_app_l in Hsorted1; exact Hsorted1).
    assert (Hs2 : StronglySorted Z.le (positions c2)).
    { apply strongly_sorted_app_r in Hsorted1.
      apply strongly_sorted_app_r in Hsorted1. exact Hsorted1. }
    simpl in Hm, Hn.
    destruct (Nat.lt_ge_cases m (List.length (reprefix k sub))) as [Lm|Lm];
      destruct (Nat.lt_ge_cases n (List.length (reprefix k sub))) as [Ln|Ln].
    + rewrite nth_error_app1 in Hm, Hn by assumption.
      exact (reprefix_nested_or_apart k sub (IHv c1 E1 Hs1) _ _ _ _ _ _ Hmn Hm Hn).
    + right. rewrite nth_error_app1 in Hm by assumption.
      rewrite nth_error_app2 in Hn by assumption.
      apply nth_error_In in Hm, Hn.
      pose proof (reprefix_within (positions c1) k sub (spans_within c1 sub H1)) as W1.
      pose proof (children_within (positions c2) subs H2 (S k)) as W2.
      rewrite Forall_forall in W1, W2.
      destruct (within_sorted _ _ Hs1 (W1 _ Hm)) as (_ & _ & Ha).
      destruct (within_sorted _ _ Hs2 (W2 _ Hn)) as (_ & Hb & _).
      simpl in Ha, Hb.
      apply (strongly_sorted_app_le _ _ _ _ Hsorted1); [exact Ha|].
      apply in_or_app. right. exact Hb.
    + lia.
    + rewrite nth_error_app2 in Hm, Hn by assumption.
      apply (IHw c2 E2 Hs2 (S k) (m - List.length (reprefix k sub))
               (n - List.length (reprefix k sub))); [lia|exact Hm|exact Hn].
Qed.

(** X7: when the loader's tokens are in document order, any two entries
    of a successful result are nested or apart: the one listed later lies
    below the pointer of the one listed earlier and inside its span, or the
    earlier one ends before the later one starts.  Spans never overlap
    partly. *)
Theorem spans_nested_or_apart (walk : M types.TSourceMapEntries)
    (loader : Loader) es loader' :
  document_order loader ->
  walk = value \/ walk = sequence \/ walk = primitive ->
  walk loader = (Return es, loader') ->
  forall m n p q a b,
    m < n ->
    nth_error es m = Some (p, a) ->
    nth_error es n = Some (q, b) ->
    ((exists r, q = (p ++ "/" ++ r)%string)
     /\ (start_offset a <= start_offset b)%Z
     /\ (end_offset b <= end_offset a)%Z)
    \/ (end_offset a <= start_offset b)%Z.
Proof.
  intros Hord Hwalk H.
  pose proof (call_walk walk loader es loader' Hwalk H) as Hw.
  destruct (proj1 walk_spans _ _ _ Hw) as (c & E & _).
  apply (proj1 walk_nested_or_apart _ _ _ Hw c E).
  apply Sorted_StronglySorted in Hord; [|intros x y z; apply Z.le_trans].
  rewrite E, positions_app in Hord.
  exact (strongly_sorted_app_l _ _ Hord).
Qed.

Lemma spans_nested_or_apart_witness :
  ((exists r, "/1" = ("/0" ++ "/" ++ r)%string)
   /\ (start_offset (span 1 4) <= start_offset (span 6 7))%Z
   /\ (end_offset (span 6 7) <= end_offset (span 1 4))%Z)
  \/ (end_offset (span 1 4) <= start_offset (span 6 7))%Z.
Proof.
  apply (spans_nested_or_apart value doc_nested
           [("", span 0 8); ("/0", span 1 4); ("/0/0", span 2 3);
            ("/1", span 6 7)]
           [tok StreamEndToken 8 8]) with (m := 1) (n := 3).
  - unfold document_order. simpl. repeat constructor; lia.
  - left. reflexivity.
  - reflexivity.
  - lia.
  - reflexivity.
  - reflexivity.
Defined.

(** ** Parents and elder siblings are addressed *)

(** A text that continues past a segment without "/" starts with it. *)
Lemma segment_prefix (a x z y : string) :
  slash_free a = true -> boundary y ->
  (x ++ "/" ++ z = a ++ y)%string ->
  exists x0, x = (a ++ x0)%string /\ (x0 ++ "/" ++ z)%string = y.
Proof.
  revert x. induction a as [|c a IH]; intros x Ha Hy H; simpl in *.
  - exists x. split; [reflexivity|exact H].
  - apply andb_prop in Ha. destruct Ha as [Hc Ha].
    destruct x as [|c' x]; simpl in H.
    + injection H as <- _. discriminate Hc.
    + injection H as -> H. destruct (IH x Ha Hy H) as (x0 & -> & E).
      exists x0. split; [reflexivity|exact E].
Qed.

Lemma children_In subs (k : nat) p a :
  In (p, a) (children_from k subs) <->
  exists j sub p0,
    nth_error subs j = Some sub /\ In (p0, a) sub
    /\ p = child_pointer (k + j) p0.
Proof.
  revert k. induction subs as [|sub subs IH]; intro k; simpl.
  - split; [contradiction|]. intros (j & sub & p0 & H & _).
    destruct j; discriminate.
  - rewrite in_app_iff, IH. split.
    + intros [H|(j & sub' & p0 & Hj & Hin & ->)].
      * unfold reprefix in H. apply in_map_iff in H.
        destruct H as ([p0 a0] & E & Hin). simpl in E. injection E as <- <-.
        exists 0, sub, p0. rewrite Nat.add_0_r. auto.
      * exists (S j), sub', p0. repeat split; [exact Hj|exact Hin|].
        f_equal. lia.
    + intros ([|j] & sub' & p0 & Hj & Hin & ->).
      * left. simpl in Hj. injection Hj as <-. rewrite Nat.add_0_r.
        unfold reprefix. apply in_map_iff. exists (p0, a). auto.
      * right. exists j, sub', p0. repeat split; [exact Hj|exact Hin|].
        f_equal. lia.
Qed.

Lemma rooted_has_root sub : rooted sub -> exists b, In ("", b) sub.
Proof. intros (entry & rest & -> & _). exists entry. left. reflexivity. Qed.

Lemma walk_closed :
  (forall l es l', walk_value l es l' -> closed_under_parents es)
  /\ (forall l subs l', walk_elements l subs l' ->
        Forall closed_under_parents subs).
Proof.
  apply walk_mutind.
  - intros t rest _ _ q i a [E|[]]. exfalso. injection E as E _.
    destruct q; discriminate.
  - intros s l subs e rest _ Hw IH _ q i a [E|Hin].
    { exfalso. injection E as E _. destruct q; discriminate. }
    pose proof (proj2 walk_rooted _ _ _ Hw) as Hr.
    apply children_In in Hin. destruct Hin as (k & sub & p0 & Hk & Hin & E).
    simpl in E.
    assert (Hsub : rooted sub /\ closed_under_parents sub).
    { rewrite Forall_forall in Hr, IH. apply nth_error_In in Hk. auto. }
    destruct Hsub as [Hrsub Hcsub].
    pose proof (rooted_boundary sub p0 a Hrsub Hin) as Hb.
    destruct q as [|c q1].
    + (* the element of a top-level index *)
      unfold child_pointer in E. simpl in E. injection E as E.
      rewrite <- (string_app_nil_r (decimal i)) in E.
      apply segment_split in E;
        [|apply slash_free_decimal|apply slash_free_decimal
         |left; reflexivity|exact Hb].
      destruct E as [E <-]. apply decimal_inj in E. subst k. split.
      * exists (entry_of s e). left. reflexivity.
      * intros j Hj.
        assert (Hlen : j < List.length subs).
        { apply Nat.lt_trans with i; [exact Hj|].
          apply nth_error_Some. congruence. }
        destruct (nth_error subs j) as [subj|] eqn:Ej;
          [|apply nth_error_None in Ej; lia].
        assert (Hrj : rooted subj).
        { rewrite Forall_forall in Hr. apply Hr.
          eapply nth_error_In; exact Ej. }
        destruct (rooted_has_root subj Hrj) as (b & Hbj).
        exists b. right. apply children_In. exists j, subj, "".
        repeat split; [exact Ej|exact Hbj|].
        unfold child_pointer. simpl. now rewrite string_app_nil_r.
    + (* an element further down: inside the sub-map of element [k] *)
      unfold child_pointer in E. simpl in E. injection E as -> E.
      apply segment_prefix in E; [|apply slash_free_decimal|exact Hb].
      destruct E as (x0 & -> & <-).
      destruct (Hcsub x0 i a Hin) as [(b & Hq) Hsib]. split.
      * exists b. right. apply children_In. exists k, sub, x0.
        repeat split; [exact Hk|exact Hq].
      * intros j Hj. destruct (Hsib j Hj) as (b' & Hj').
        exists b'. right. apply children_In.
        exists k, sub, (x0 ++ "/" ++ decimal j)%string.
        repeat split; [exact Hk|exact Hj'|].
        unfold child_pointer. simpl. now rewrite string_app_assoc.
  - constructor.
  - intros. constructor; assumption.
Qed.

(** X8: a successful result addresses, with every element, the sequence
    that holds it and all the elements before it: if the list has the
    pointer [q/i], it has the pointer [q] and the pointers [q/j] for every
    [j < i], at whatever depth. *)
Theorem pointers_closed (walk : M types.TSourceMapEntries)
    (loader : Loader) es loader' :
  walk = value \/ walk = sequence \/ walk = primitive ->
  walk loader = (Return es, loader') ->
  forall q i a,
    In ((q ++ "/" ++ decimal i)%string, a) es ->
    (exists b, In (q, b) es)
    /\ forall j, j < i -> exists b, In ((q ++ "/" ++ decimal j)%string, b) es.
Proof.
  intros Hwalk H. apply (proj1 walk_closed loader es loader').
  exact (call_walk walk loader es loader' Hwalk H).
Qed.

Lemma pointers_closed_witness :
  (exists b, In ("", b) [("", span 0 8); ("/0", span 1 4);
                         ("/0/0", span 2 3); ("/1", span 6 7)])
  /\ forall j, j < 1 ->
       exists b, In (("" ++ "/" ++ decimal j)%string, b)
                    [("", span 0 8); ("/0", span 1 4); ("/0/0", span 2 3);
                     ("/1", span 6 7)].
Proof.
  apply (pointers_closed value doc_nested
           [("", span 0 8); ("/0", span 1 4); ("/0/0", span 2 3);
            ("/1", span 6 7)]
           [tok StreamEndToken 8 8]) with (q := "") (i := 1) (a := span 6 7).
  - left. reflexivity.
  - reflexivity.
  - simpl. auto.
Defined.

(** ** Marks do not matter to pointers *)

Lemma classes_cons_inv (t : Token) (l l' : Loader) :
  map class (t :: l) = map class l' ->
  exists t' k', l' = t' :: k' /\ class t = class t' /\ map class l = map class k'.
Proof.
  destruct l' as [|t' k']; [discriminate|]. simpl. intro H.
  injection H as Ht Hl. eauto.
Qed.

Lemma isinstance_class (classes : list TokenClass) (t t' : Token) :
  class t = class t' ->
  isinstance (Some t) classes = isinstance (Some t') classes.
Proof. unfold isinstance. intros ->. reflexivity. Qed.

Lemma isinstance_hd_class (classes : list TokenClass) (l l' : Loader) :
  map class l = map class l' ->
  isinstance (hd_error l) classes = isinstance (hd_error l') classes.
Proof.
  destruct l as [|t l]; intro H.
  - destruct l'; [reflexivity|discriminate].
  - destruct (classes_cons_inv t l l' H) as (t' & k' & -> & Ht & _).
    apply isinstance_class. exact Ht.
Qed.

Lemma skip_class (c : TokenClass) (l l' : Loader) :
  map class l = map class l' -> map class (skip c l) = map class (skip c l').
Proof.
  intro H. unfold skip. rewrite (isinstance_hd_class [c] l l' H).
  destruct (isinstance (hd_error l') [c]); [|exact H].
  destruct l as [|t l].
  - destruct l'; [reflexivity|discriminate].
  - destruct (classes_cons_inv t l l' H) as (t' & k' & -> & _ & Hk). exact Hk.
Qed.

Lemma children_pointers subs subs' :
  Forall2 (fun a b => map fst a = map fst b) subs subs' ->
  forall k, map fst (children_from k subs) = map fst (children_from k subs').
Proof.
  induction 1 as [|sub sub' subs subs' Hsub _ IH]; intro k; [reflexivity|].
  simpl. rewrite !map_app, !reprefix_pointers, Hsub, IH. reflexivity.
Qed.

Lemma walk_classes :
  (forall l es rest, walk_value l es rest ->
     forall l', map class l = map class l' ->
       exists es' rest', walk_value l' es' rest'
                         /\ map fst es = map fst es'
                         /\ map class rest = map class rest')
  /\ (forall l subs rest, walk_elements l subs rest ->
        forall l', map class l = map class l' ->
          exists subs' rest', walk_elements l' subs' rest'
                              /\ Forall2 (fun a b => map fst a = map fst b)
                                         subs subs'
                              /\ map class rest = map class rest').
Proof.
  apply walk_mutind.
  - intros t rest Ht Hs l' Hl.
    destruct (classes_cons_inv t rest l' Hl) as (t' & rest' & -> & Hc & Hrest).
    exists [("", entry_of t' t')], rest'. repeat split; [|exact Hrest].
    constructor.
    + rewrite <- (isinstance_class _ t t' Hc). exact Ht.
    + rewrite <- (isinstance_class _ t t' Hc). exact Hs.
  - intros s l subs e rest Hs _ IH He l' Hl.
    destruct (classes_cons_inv s l l' Hl) as (s' & l1' & -> & Hc & Hl1).
    destruct (IH l1' Hl1) as (subs' & rest1' & Hw & Hsubs & Hrest1).
    destruct (classes_cons_inv e rest rest1' Hrest1)
      as (e' & rest' & -> & Hce & Hrest).
    exists (("", entry_of s' e') :: children_from 0 subs'), rest'.
    repeat split; [|simpl; f_equal; apply children_pointers; exact Hsubs
                   |exact Hrest].
    econstructor.
    + rewrite <- (isinstance_class _ s s' Hc). exact Hs.
    + exact Hw.
    + rewrite <- (isinstance_class _ e e' Hce). exact He.
  - intros l He l' Hl. exists [], l'. repeat split; [|constructor|exact Hl].
    constructor. rewrite <- (isinstance_hd_class _ l l' Hl). exact He.
  - intros l sub l2 subs rest He _ IHv _ IHw l' Hl.
    destruct (IHv _ (skip_class BlockEntryToken l l' Hl))
      as (sub' & l2' & Hv & Hsub & Hl2).
    destruct (IHw _ (skip_class FlowEntryToken l2 l2' Hl2))
      as (subs' & rest' & Hw & Hsubs & Hrest).
    exists (sub' :: subs'), rest'.
    repeat split; [|constructor; assumption|exact Hrest].
    econstructor.
    + rewrite <- (isinstance_hd_class _ l l' Hl). exact He.
    + exact Hv.
    + exact Hw.
Qed.

Lemma value_addressing_le (l l' : Loader) es rest :
  map class l = map class l' ->
  value l = (Return es, rest) ->
  addressing (value l') = Some (map fst es, List.length rest).
Proof.
  intros Hl H. apply value_walk in H.
  destruct (proj1 walk_classes _ _ _ H l' Hl) as (es' & rest' & Hw & Hes & Hrest).
  apply (proj1 walk_complete) in Hw. unfold addressing. rewrite Hw. simpl.
  rewrite Hes. apply (f_equal (@List.length _)) in Hrest.
  rewrite !length_map in Hrest. rewrite Hrest. reflexivity.
Qed.

(** X9: the pointers do not depend on the marks.  On two loaders whose
    tokens have the same classes in the same order, [value] raises on both
    or returns on both, with the same pointers in the same order and the
    same number of tokens left; only the spans can differ. *)
Theorem pointers_from_classes (loader loader' : Loader) :
  map class loader = map class loader' ->
  addressing (value loader) = addressing (value loader').
Proof.
  intro Hl.
  destruct (value loader) as [[es|err|] rest] eqn:E.
  - symmetry. apply (value_addressing_le loader loader' es rest Hl E).
  - destruct (value loader') as [[es'|err'|] rest'] eqn:E'; try reflexivity.
    pose proof (value_addressing_le loader' loader es' rest' (eq_sym Hl) E') as H.
    rewrite E in H. discriminate H.
  - exfalso. pose proof (value_total loader) as T. rewrite E in T.
    apply T. reflexivity.
Qed.

Lemma pointers_from_classes_witness :
  addressing (value doc_nested) = addressing (value doc_nested_spaced).
Proof.
  apply (pointers_from_classes doc_nested doc_nested_spaced). reflexivity.
Defined.

(** ** Separators are not needed *)

Lemma strip_app (a b : list Token) : strip (a ++ b) = strip a ++ strip b.
Proof. apply filter_app. Qed.

Lemma strip_separator (c : TokenClass) (pre : list Token) :
  c = BlockEntryToken \/ c = FlowEntryToken ->
  pre = [] \/ (exists t, pre = [t] /\ isinstance (Some t) [c] = true) ->
  strip pre = [].
Proof.
  intros Hc [->|(t & -> & Ht)]; [reflexivity|].
  destruct t as [ct sm em]. unfold strip, separator, isinstance in *.
  simpl in *.
  destruct Hc as [-> | ->]; destruct ct; try discriminate; reflexivity.
Qed.

Lemma skip_no_separator (c : TokenClass) (t : Token) (r : Loader) :
  c = BlockEntryToken \/ c = FlowEntryToken ->
  separator t = false -> skip c (t :: r) = t :: r.
Proof.
  intros Hc Ht. rewrite skip_cons. destruct t as [ct sm em].
  unfold separator, isinstance in *. simpl in *.
  destruct Hc as [-> | ->]; destruct ct; try discriminate; reflexivity.
Qed.

Lemma strip_hd (c : list Token) (t : Token) (r : list Token) :
  strip c = t :: r -> separator t = false.
Proof.
  intro H. assert (Hin : In t (strip c)) by (rewrite H; left; reflexivity).
  unfold strip in Hin. apply filter_In in Hin. destruct Hin as [_ Hin].
  destruct (separator t); [discriminate|reflexivity].
Qed.

Lemma end_not_separator (e : Token) :
  isinstance (Some e) sequence_ends = true -> separator e = false.
Proof.
  destruct e as [c sm em]. unfold separator, isinstance. simpl.
  destruct c; try discriminate; reflexivity.
Qed.

Lemma walk_stripped :
  (forall l es l', walk_value l es l' ->
     exists c t r,
       l = c ++ l' /\ strip c = t :: r
       /\ isinstance (Some t) sequence_ends = false
       /\ hd_error c = Some t
       /\ forall other, walk_value (strip c ++ other) es other)
  /\ (forall l subs l', walk_elements l subs l' ->
        exists c e r,
          l' = e :: r /\ l = c ++ e :: r
          /\ forall other,
               walk_elements (strip c ++ e :: other) subs (e :: other)).
Proof.
  assert (Tb : BlockEntryToken = BlockEntryToken \/ BlockEntryToken = FlowEntryToken)
    by (left; reflexivity).
  assert (Tf : FlowEntryToken = BlockEntryToken \/ FlowEntryToken = FlowEntryToken)
    by (right; reflexivity).
  apply walk_mutind.
  - intros [ct sm em] rest Ht Hs.
    exists [{| class := ct; start_mark := sm; end_mark := em |}],
      {| class := ct; start_mark := sm; end_mark := em |}, [].
    unfold isinstance in Ht. simpl in Ht.
    destruct ct; try discriminate. repeat split.
    intro other. constructor; reflexivity.
  - intros [cs ss se] l subs e rest Hs _ (c & e' & r & E & -> & Hc) He.
    injection E as <- <-.
    pose proof (end_not_separator e He) as Hsep.
    exists ({| class := cs; start_mark := ss; end_mark := se |} :: c ++ [e]),
      {| class := cs; start_mark := ss; end_mark := se |}, (strip c ++ [e]).
    unfold isinstance in Hs. simpl in Hs.
    destruct cs; try discriminate; (repeat split;
      [simpl; rewrite <- app_assoc; reflexivity
      |unfold strip at 1; simpl; fold (strip (c ++ [e])); rewrite strip_app;
       unfold strip at 2; simpl; rewrite Hsep; reflexivity
      |intro other; unfold strip; simpl; fold (strip (c ++ [e]));
       rewrite strip_app; unfold strip at 2; simpl; rewrite Hsep; simpl;
       rewrite <- app_assoc; simpl;
       econstructor; [reflexivity|apply Hc|exact He]]).
  - intros l He. destruct l as [|e r]; [discriminate|].
    exists [], e, r. repeat split. intro other. constructor. exact He.
  - intros l sub l2 subs l' He _ (c1 & t & r1 & E1 & S1 & Ne & Hd1 & F1) _
           (c2 & e & r & -> & E2 & F2).
    destruct (skip_split BlockEntryToken l) as (pre & Epre & Hpre).
    destruct (skip_split FlowEntryToken l2) as (mid & Emid & Hmid).
    exists (pre ++ c1 ++ mid ++ c2), e, r. repeat split.
    + rewrite Epre at 1. rewrite E1. rewrite Emid at 1. rewrite E2.
      repeat rewrite <- app_assoc. reflexivity.
    + intro other. rewrite !strip_app.
      rewrite (strip_separator BlockEntryToken pre Tb Hpre),
        (strip_separator FlowEntryToken mid Tf Hmid).
      simpl. rewrite <- app_assoc.
      apply walk_element with (l2 := strip c2 ++ e :: other).
      * rewrite S1. simpl. exact Ne.
      * assert (Hskip : skip BlockEntryToken (strip c1 ++ strip c2 ++ e :: other)
                        = strip c1 ++ strip c2 ++ e :: other).
        { rewrite S1. simpl. apply skip_no_separator;
            [exact Tb|exact (strip_hd c1 t r1 S1)]. }
        rewrite Hskip. apply F1.
      * destruct (strip c2) as [|t2 r2] eqn:S2.
        -- simpl. rewrite (skip_no_separator FlowEntryToken);
             [|exact Tf|apply end_not_separator].
           ++ exact (F2 other).
           ++ exact (walk_elements_stops _ _ _ (F2 other)).
        -- simpl. rewrite (skip_no_separator FlowEntryToken);
             [|exact Tf|exact (strip_hd c2 t2 r2 S2)].
           exact (F2 other).
Qed.

(** X10: the walk needs no separator.  When a call succeeds, the tokens it
    took, with every block entry and flow entry token removed, are walked
    to the same entries (followed by any rest of the stream, which is left
    as it is): an element need not be followed by a flow entry nor preceded
    by a block entry. *)
Theorem separators_optional (walk : M types.TSourceMapEntries)
    (loader : Loader) es loader' (other : Loader) :
  walk = value \/ walk = sequence \/ walk = primitive ->
  walk loader = (Return es, loader') ->
  walk (strip (consumed loader loader') ++ other) = (Return es, other).
Proof.
  intros Hwalk H. pose proof (call_walk walk loader es loader' Hwalk H) as Hw.
  destruct (proj1 walk_stripped _ _ _ Hw)
    as (c & t & r & -> & Hs & _ & Hd & Hframe).
  rewrite consumed_app. specialize (Hframe other).
  destruct Hwalk as [->|[->| ->]].
  - apply (proj1 walk_complete). exact Hframe.
  - apply walk_value_sequence; [exact Hframe|].
    apply sequence_walk in H. destruct H as [_ H].
    destruct c as [|t0 c]; [discriminate|]. simpl in Hd. injection Hd as ->.
    rewrite Hs. exact H.
  - apply (proj1 walk_complete) in Hframe. rewrite value_eq in Hframe.
    rewrite primitive_eq in H.
    destruct c as [|t0 c]; [discriminate|]. simpl in Hd. injection Hd as ->.
    cbn [Datatypes.app] in H.
    destruct (isinstance (Some t) [ScalarToken]) eqn:Ht; [|discriminate].
    rewrite Hs in Hframe |- *. simpl hd_error in Hframe.
    rewrite (scalar_not_start t Ht) in Hframe. exact Hframe.
Qed.

Lemma separators_optional_witness :
  value (strip (consumed doc_nested [tok StreamEndToken 8 8])
         ++ [tok StreamEndToken 8 8])
  = (Return [("", span 0 8); ("/0", span 1 4); ("/0/0", span 2 3);
             ("/1", span 6 7)],
     [tok StreamEndToken 8 8]).
Proof.
  apply (separators_optional value doc_nested _ [tok StreamEndToken 8 8]).
  - left. reflexivity.
  - reflexivity.
Defined.

(** ** Spans are the marks of the tokens taken *)






(** ** Entries are listed in the order of the walk *)

Lemma strongly_sorted_app (R : list nat -> list nat -> Prop) (a b : list (list nat)) :
  StronglySorted R a -> StronglySorted R b ->
  (forall x y, In x a -> In y b -> R x y) ->
  StronglySorted R (a ++ b).
Proof.
  induction 1 as [|x a Ha IH Hx]; intros Hb Hab; simpl; [exact Hb|].
  constructor.
  - apply IH; [exact Hb|]. intros u v Hu Hv. apply Hab; [right|]; assumption.
  - apply Forall_app. split; [exact Hx|].
    rewrite Forall_forall. intros y Hy. apply Hab; [left; reflexivity|exact Hy].
Qed.

Lemma strongly_sorted_below (k : nat) (paths : list (list nat)) :
  StronglySorted path_lt paths ->
  StronglySorted path_lt (map (cons k) paths).
Proof.
  induction 1 as [|p paths _ IH Hp]; simpl; constructor; [exact IH|].
  apply Forall_map. eapply Forall_impl; [|exact Hp].
  intros q Hq. apply path_lt_below. exact Hq.
Qed.

Lemma children_paths subs :
  Forall (fun sub => exists paths,
              map fst sub = map pointer_of_path paths
              /\ StronglySorted path_lt paths) subs ->
  forall k, exists paths,
    map fst (children_from k subs) = map pointer_of_path paths
    /\ StronglySorted path_lt paths
    /\ Forall (fun p => exists m r, p = m :: r /\ k <= m) paths.
Proof.
  induction 1 as [|sub subs (ps & Eps & Sps) _ IH]; intro k.
  - exists []. repeat split; constructor.
  - destruct (IH (S k)) as (qs & Eqs & Sqs & Bqs).
    exists (map (cons k) ps ++ qs). repeat split.
    + simpl. rewrite !map_app, reprefix_pointers, Eps, Eqs, !map_map.
      reflexivity.
    + apply strongly_sorted_app;
        [apply strongly_sorted_below; exact Sps|exact Sqs|].
      intros x y Hx Hy. apply in_map_iff in Hx. destruct Hx as (p & <- & _).
      rewrite Forall_forall in Bqs. destruct (Bqs y Hy) as (m & r & -> & Hm).
      apply path_lt_index. lia.
    + apply Forall_app. split.
      * apply Forall_map. rewrite Forall_forall. intros p _.
        exists k, p. split; [reflexivity|lia].
      * eapply Forall_impl; [|exact Bqs].
        intros p (m & r & -> & Hm). exists m, r. split; [reflexivity|lia].
Qed.

Lemma walk_paths :
  (forall l es l', walk_value l es l' ->
     exists paths, map fst es = map pointer_of_path paths
                   /\ StronglySorted path_lt paths)
  /\ (forall l subs l', walk_elements l subs l' ->
        Forall (fun sub => exists paths,
                    map fst sub = map pointer_of_path paths
                    /\ StronglySorted path_lt paths) subs).
Proof.
  apply walk_mutind.
  - intros. exists [[]]. split; [reflexivity|]. repeat constructor.
  - intros s l subs e rest _ _ IH _.
    destruct (children_paths subs IH 0) as (ps & Eps & Sps & Bps).
    exists ([] :: ps). split; [simpl; rewrite Eps; reflexivity|].
    constructor; [exact Sps|]. eapply Forall_impl; [|exact Bps].
    intros p (m & r & -> & _). constructor.
  - constructor.
  - intros. constructor; assumption.
Qed.

(** X12: the pointers of a successful result are those of a list of index
    paths that is strictly increasing in the order of the walk: a sequence
    comes before its elements, and an element, with all that is below it,
    before the elements after it. *)
Theorem pointers_in_walk_order (walk : M types.TSourceMapEntries)
    (loader : Loader) es loader' :
  walk = value \/ walk = sequence \/ walk = primitive ->
  walk loader = (Return es, loader') ->
  exists paths,
    map fst es = map pointer_of_path paths
    /\ StronglySorted path_lt paths.
Proof.
  intros Hwalk H. apply (proj1 walk_paths loader es loader').
  exact (call_walk walk loader es loader' Hwalk H).
Qed.

Lemma pointers_in_walk_order_witness :
  exists paths,
    map fst [("", span 0 8); ("/0", span 1 4); ("/0/0", span 2 3);
             ("/1", span 6 7)]
    = map pointer_of_path paths
    /\ StronglySorted path_lt paths.
Proof.
  apply (pointers_in_walk_order value doc_nested _ [tok StreamEndToken 8 8]).
  - left. reflexivity.
  - reflexivity.
Defined.
